(** * onErrorResumeNext: a sequential-fallback operator

    Shallow embedding of [src/internal/operators/onErrorResumeNext.ts].

    The operator owns a queue [remaining] of observable inputs (the source
    followed by the fallbacks) and a closure [subscribeNext] that shifts the
    front of the queue, subscribes to it through a forwarding
    [OperatorSubscriber], and registers itself as a teardown of that
    subscriber, so that it runs again when the inner run finalizes.

    The JavaScript objects touched by the closure are kept in an explicit
    store ([State]); every function of the source becomes a state
    transformer.  Notifications pushed by a source during the [subscribe]
    call are part of the source's description; notifications pushed later,
    and the consumer unsubscribing, are [Event]s handled by [step]. *)

From stdpp Require Import base list.
From Stdlib Require Import Lia.

Set Default Proof Using "Type".

(** ** Data model *)

Section Model.

Context {T : Type}.

(** [next(value)], [error(err)], [complete]. *)
Inductive Notification : Type :=
  | Next (value : T)
  | Error (err : T)
  | Complete.

(** Modelled from the spec: [Observable] is declared outside this file.  The
    spec's Source is an opaque producer with the single capability
    [subscribe(sink)].  What the operator can see of it is the sequence of
    notifications it pushes into the sink during the [subscribe] call
    ([emits]); whatever it pushes afterwards arrives as an [Emit] event. *)
Record Observable : Type := mkObservable { emits : list Notification }.

(** An entry of [remaining]: any value the caller passed.  [Invalid] stands
    for a value that [innerFrom] rejects. *)
Inductive ObservableInput : Type :=
  | Invalid
  | Input (o : Observable).

(** Modelled from the spec: [innerFrom] is declared outside this file.  It
    either returns a subscribable source or throws before any subscription
    occurs ([None]). *)
Definition innerFrom (x : ObservableInput) : option Observable :=
  match x with
  | Invalid => None
  | Input o => Some o
  end.

(** The only function ever registered on an inner subscriber by this file
    is the closure [subscribeNext] (line 104). *)
Inductive Teardown : Type :=
  | SubscribeNext.

(** One [OperatorSubscriber] created on line 102: its [closed] flag, the
    teardowns registered on it, and the source it was handed to. *)
Record InnerSubscriber : Type := mkInner {
  inner_closed : bool;
  inner_teardowns : list Teardown;
  inner_source : Observable;
}.

(** The store.
    - [nextSources]: the array captured by the operator (the caller's).
    - [remaining]: the array built on line 86, private to the subscription.
    - [closed], [teardowns], [received]: the downstream [subscriber], the
      inner subscriptions it owns (by index into [inners]) and what has been
      delivered to its destination, oldest first.
    - [inners]: every [innerSub] created so far, in creation order.
    - [depth], [max_depth], [max_alive]: meters, written but never read by
      the operator: the number of [subscribeNext] activations currently in
      progress, the highest value it has reached, and the highest number of
      inner subscribers that were open at the same time. *)
Record State : Type := mkState {
  nextSources : list ObservableInput;
  remaining : list ObservableInput;
  closed : bool;
  teardowns : list nat;
  received : list Notification;
  inners : list InnerSubscriber;
  depth : nat;
  max_depth : nat;
  max_alive : nat;
}.

Definition set_remaining (q : list ObservableInput) (st : State) : State :=
  mkState (nextSources st) q (closed st) (teardowns st) (received st)
          (inners st) (depth st) (max_depth st) (max_alive st).

Definition set_closed (b : bool) (st : State) : State :=
  mkState (nextSources st) (remaining st) b (teardowns st) (received st)
          (inners st) (depth st) (max_depth st) (max_alive st).

Definition set_teardowns (l : list nat) (st : State) : State :=
  mkState (nextSources st) (remaining st) (closed st) l (received st)
          (inners st) (depth st) (max_depth st) (max_alive st).

Definition set_received (l : list Notification) (st : State) : State :=
  mkState (nextSources st) (remaining st) (closed st) (teardowns st) l
          (inners st) (depth st) (max_depth st) (max_alive st).

Definition set_inners (l : list InnerSubscriber) (st : State) : State :=
  mkState (nextSources st) (remaining st) (closed st) (teardowns st)
          (received st) l (depth st) (max_depth st) (max_alive st).

(** Number of inner subscribers that are not closed. *)
Definition alive (st : State) : nat :=
  length (filter (fun s => inner_closed s = false) (inners st)).

Definition enter (st : State) : State :=
  mkState (nextSources st) (remaining st) (closed st) (teardowns st)
          (received st) (inners st) (S (depth st))
          (Nat.max (max_depth st) (S (depth st))) (max_alive st).

Definition leave (st : State) : State :=
  mkState (nextSources st) (remaining st) (closed st) (teardowns st)
          (received st) (inners st) (Nat.pred (depth st))
          (max_depth st) (max_alive st).

Definition observe_alive (st : State) : State :=
  mkState (nextSources st) (remaining st) (closed st) (teardowns st)
          (received st) (inners st) (depth st) (max_depth st)
          (Nat.max (max_alive st) (alive st)).

(** ** Subscriptions and subscribers

    [Subscription], [Subscriber] and [OperatorSubscriber] are declared
    outside this file; the functions of this section are modelled from the
    spec's contract for them (spec 3 and 4.1): [unsubscribe()] is idempotent
    and recursively cancels everything the subscription owns; a registered
    teardown runs exactly once when the subscription finalizes (by
    completion, error or external unsubscription); a teardown added to a
    subscription that has already finalized runs at once (this is what
    makes a synchronously terminating source advance the queue before
    control returns to the caller); a stopped subscriber drops what it is
    sent.

    The functions take the closure [K] that a [SubscribeNext] teardown
    denotes. *)

Section Wiring.

(** The downstream consumer: after each value delivered to it, it may
    unsubscribe synchronously (as [take(3)] does on its third value, see the
    comment on lines 98-101).  [cancels l] says whether it does so when [l]
    is everything delivered so far. *)
Variable cancels : list Notification -> bool.

Variable K : State -> State.

(** Modelled from the spec: running a registered teardown, here calling
    the closure. *)
Definition execTeardown (t : Teardown) (st : State) : State :=
  match t with
  | SubscribeNext => K st
  end.

(** Modelled from the spec: [innerSub.unsubscribe()] for the inner
    subscriber of index [i].  It is marked closed, detached from its parent,
    and its teardowns run in order; on a closed subscriber nothing
    happens. *)
Definition unsubscribeInner (i : nat) (st : State) : State :=
  match inners st !! i with
  | Some s =>
      if inner_closed s then st
      else
        let st1 :=
          set_teardowns (filter (fun j => j ≠ i) (teardowns st))
            (set_inners (<[i := mkInner true [] (inner_source s)]> (inners st)) st) in
        foldl (fun st' t => execTeardown t st') st1 (inner_teardowns s)
  | None => st
  end.

(** Modelled from the spec: [subscriber.unsubscribe()].  The downstream
    subscriber is marked closed, then every subscription it owns is
    unsubscribed. *)
Definition unsubscribe (st : State) : State :=
  if closed st then st
  else
    foldl (fun st' i => unsubscribeInner i st')
      (set_teardowns [] (set_closed true st)) (teardowns st).

(** Modelled from the spec: [subscriber.next(value)].  The value is
    delivered unless [subscriber] is stopped; the consumer may unsubscribe
    on it. *)
Definition subscriberNext (value : T) (st : State) : State :=
  if closed st then st
  else
    let st1 := set_received (received st ++ [Next value]) st in
    if cancels (received st1) then unsubscribe st1 else st1.

(** Modelled from the spec: [subscriber.complete()] (line 106).
    [complete] is delivered, then [subscriber] unsubscribes. *)
Definition subscriberComplete (st : State) : State :=
  if closed st then st
  else unsubscribe (set_received (received st ++ [Complete]) st).

(** Modelled from the spec: [subscriber.add(sub)] (line 103), where [sub],
    the subscription returned by [nextSource.subscribe(innerSub)], is the
    inner subscription [i].  On a closed [subscriber] it is unsubscribed at
    once; otherwise it becomes owned by [subscriber], once. *)
Definition subscriberAdd (i : nat) (st : State) : State :=
  if closed st then unsubscribeInner i st
  else
    match inners st !! i with
    | Some s =>
        if inner_closed s then st
        else if bool_decide (i ∈ teardowns st) then st
        else set_teardowns (teardowns st ++ [i]) st
    | None => st
    end.

(** Modelled from the spec: [innerSub.add(teardown)] (line 104).  On a
    closed subscriber the teardown runs at once; otherwise it is
    registered. *)
Definition innerAdd (i : nat) (t : Teardown) (st : State) : State :=
  match inners st !! i with
  | Some s =>
      if inner_closed s then execTeardown t st
      else
        set_inners
          (<[i := mkInner false (inner_teardowns s ++ [t]) (inner_source s)]> (inners st)) st
  | None => st
  end.

(** Modelled from the spec:
    [new OperatorSubscriber(subscriber, undefined, noop, noop)] (line 102)
    for a run of [o].  A fresh open subscriber is created and wired to
    [subscriber], which owns it (lines 98-101).  Returns its index. *)
Definition newOperatorSubscriber (o : Observable) (st : State) : nat * State :=
  let i := length (inners st) in
  (i, subscriberAdd i (observe_alive (set_inners (inners st ++ [mkInner false [] o]) st))).

(** Modelled from the spec: a notification pushed into [innerSub] number
    [i].  The subscriber was built with no [onNext] (values go straight to
    [subscriber.next]) and with [noop] for both [onError] and [onComplete]:
    either one runs [noop] and unsubscribes the inner subscriber; nothing
    reaches [subscriber].  A closed subscriber drops everything. *)
Definition innerNotify (i : nat) (n : Notification) (st : State) : State :=
  match inners st !! i with
  | Some s =>
      if inner_closed s then st
      else
        match n with
        | Next value => subscriberNext value st
        | Error _ => unsubscribeInner i st
        | Complete => unsubscribeInner i st
        end
  | None => st
  end.

(** Modelled from the spec: [nextSource.subscribe(innerSub)] (line 103).
    The source pushes its synchronous notifications into [innerSub]. *)
Definition subscribeSource (o : Observable) (i : nat) (st : State) : State :=
  foldl (fun st' n => innerNotify i n st') st (emits o).

End Wiring.

(** ** The operator *)

Section Operator.

Variable cancels : list Notification -> bool.

(** What a call of [subscribeNext] does when [subscriber.closed] holds:
    it is entered and left, nothing else. *)
Definition subscribeNext_closed (st : State) : State := leave (enter st).

(** The closure [subscribeNext] (lines 87-109), by recursion on the queue it
    finds in [remaining].  Each [remaining.shift()] is written back to the
    store before anything else runs.  The closure handed to the
    subscriptions is the function itself on the queue it will find: the rest
    of the queue in the first branch; in the second branch the only
    activations possible are those run by [subscriber.complete()], after
    [closed] is set.  Lemma [subscribeNext_unfold] below shows that this is
    the function of the source: it satisfies, on every store, the equation
    in which [subscribeNext] reads [remaining] from the store and hands
    itself to the subscriptions. *)
Fixpoint subscribeNext_from (q : list ObservableInput) (st : State) : State :=
  let st0 := enter st in
  leave
    (if closed st0 then st0
     else
       match q with
       | e :: rest =>
           let st1 := set_remaining rest st0 in
           match innerFrom e with
           | None => subscribeNext_from rest st1
           | Some nextSource =>
               let '(innerSub, st2) :=
                 newOperatorSubscriber (subscribeNext_from rest) nextSource st1 in
               let st3 :=
                 subscribeSource cancels (subscribeNext_from rest) nextSource innerSub st2 in
               let st4 := subscriberAdd (subscribeNext_from rest) innerSub st3 in
               innerAdd (subscribeNext_from rest) innerSub SubscribeNext st4
           end
       | [] => subscriberComplete subscribeNext_closed st0
       end).

Definition subscribeNext (st : State) : State :=
  subscribeNext_from (remaining st) st.

(** The store when [operate]'s callback starts (line 86):
    [remaining = [source, ...nextSources]], a fresh open [subscriber]. *)
Definition initial (nextSources : list ObservableInput) (source : ObservableInput) : State :=
  mkState nextSources (source :: nextSources) false [] [] [] 0 0 0.

(** [source.pipe(onErrorResumeNext(nextSources)).subscribe(...)]: the store
    when the [subscribe] call returns (line 111). *)
Definition onErrorResumeNext (nextSources : list ObservableInput)
    (source : ObservableInput) : State :=
  subscribeNext (initial nextSources source).

(** What can happen after the [subscribe] call has returned. *)
Inductive Event : Type :=
  | Emit (i : nat) (n : Notification)
  | Unsubscribe.

Definition step (st : State) (ev : Event) : State :=
  match ev with
  | Emit i n => innerNotify cancels subscribeNext i n st
  | Unsubscribe => unsubscribe subscribeNext st
  end.

Definition run (st : State) (evs : list Event) : State := foldl step st evs.

End Operator.

End Model.

Arguments Notification : clear implicits.
Arguments Observable : clear implicits.
Arguments ObservableInput : clear implicits.
Arguments InnerSubscriber : clear implicits.
Arguments State : clear implicits.
Arguments Event : clear implicits.

(** ** Phases of a subscription and the invariant of a run *)

Section Invariants.

Context {T : Type}.

Implicit Types (st : State T) (K : State T → State T).
Implicit Types (q ns : list (ObservableInput T)) (src e : ObservableInput T).
Implicit Types (tds : list Teardown) (o : Observable T).
Implicit Types (cancels : list (Notification T) → bool).

(** An inner subscriber that has finalized: closed, its teardowns run. *)
Definition finalized (s : InnerSubscriber T) : Prop :=
  inner_closed s = true ∧ inner_teardowns s = [].

(** The states of the spec's state machine, as they show in the store:
    - [Advancing]: [subscriber] open, no inner subscriber open;
    - [Subscribing i]: inner subscriber [i] was just created, its source is
      being subscribed, [subscribeNext] is not registered on it yet;
    - [Active i]: inner subscriber [i] is open and carries
      [subscribeNext] as its teardown;
    - [Done]: [subscriber] closed, every inner subscriber finalized. *)
Inductive Phase : Type :=
  | Advancing
  | Subscribing (i : nat)
  | Active (i : nat)
  | Done.

Definition subscribed (tds : list Teardown) (i : nat) (st : State T) : Prop :=
  closed st = false ∧ teardowns st = [i] ∧
  ∃ l o, inners st = l ++ [mkInner false tds o] ∧ length l = i ∧ Forall finalized l.

Definition in_phase (ph : Phase) (st : State T) : Prop :=
  match ph with
  | Advancing => closed st = false ∧ teardowns st = [] ∧ Forall finalized (inners st)
  | Subscribing i => subscribed [] i st
  | Active i => subscribed [SubscribeNext] i st
  | Done => closed st = true ∧ teardowns st = [] ∧ Forall finalized (inners st)
  end.

(** The store while the source handed to inner subscriber [i] is being
    subscribed: the subscriber is still open; or it has finalized on a
    terminal notification; or the consumer has unsubscribed. *)
Definition during (i : nat) (st : State T) : Prop :=
  (in_phase (Subscribing i) st ∨ in_phase Advancing st ∨ in_phase Done st) ∧
  length (inners st) = S i.

(** Inner subscriber [i] carries no teardown yet (or is closed, or does not
    exist): the situation between lines 102 and 104. *)
Definition unarmed (i : nat) (st : State T) : Prop :=
  ∀ x, inners st !! i = Some x → inner_closed x = false → inner_teardowns x = [].

(** Between two events a subscription is [Active] or [Done]. *)
Definition quiescent (st : State T) : Prop :=
  (∃ i, in_phase (Active i) st) ∨ in_phase Done st.

(** [received] is a run of values, possibly closed by one [complete]. *)
Definition values_only (l : list (Notification T)) : Prop :=
  ∃ vs, l = Next <$> vs.

Definition values_then_complete (l : list (Notification T)) : Prop :=
  ∃ vs, l = (Next <$> vs) ++ [Complete].

(** Why [subscriber] is closed: it was completed, or the consumer
    unsubscribed on a value ([cancels]), or from outside ([u]). *)
Definition closed_because cancels (u : bool) (st : State T) : Prop :=
  values_then_complete (received st) ∨
  (∃ l, l `prefix_of` received st ∧ cancels l = true) ∨
  u = true.

(** The invariant of a run of the operator applied to [src] with
    [ns] as fallbacks. *)
Record sound cancels (u : bool) ns src (st : State T) : Prop := mkSound {
  sound_frame : nextSources st = ns;
  sound_queue :
    ∃ consumed, consumed ++ remaining st = src :: ns ∧
                inner_source <$> inners st = omap innerFrom consumed;
  sound_received :
    values_only (received st) ∨
    (values_then_complete (received st) ∧ closed st = true ∧ remaining st = []);
  sound_alive : max_alive st ≤ 1;
  sound_closed : closed st = true → closed_because cancels u st;
}.

(** A closure that does what [subscribeNext] does once [subscriber] is
    closed. *)
Definition guarded K : Prop :=
  ∀ st, closed st = true → K st = subscribeNext_closed st.

(** Whether the consumer unsubscribes from outside in a list of events. *)
Definition is_unsubscribe (ev : Event T) : bool :=
  match ev with Unsubscribe => true | Emit _ _ => false end.

Definition has_unsubscribe (evs : list (Event T)) : bool :=
  existsb is_unsubscribe evs.

(** Counting notifications. *)
Definition is_complete (n : Notification T) : bool :=
  match n with Complete => true | _ => false end.

Definition is_error (n : Notification T) : bool :=
  match n with Error _ => true | _ => false end.

Definition count (p : Notification T → bool) (l : list (Notification T)) : nat :=
  length (filter (fun n => p n = true) l).

(** ** The advancement algorithm as the spec words it (4.1)

    A second, independent description of the operator: what the consumer
    and the caller can observe of a subscription ([received], the queue,
    how many sources were subscribed so far, whether [subscriber] is
    closed), and the spec's advancement algorithm on it.  Lemma
    [reachable_sound] below relates it to the code. *)

(** How the subscription of one source ends, as far as the synchronous
    part of its script goes. *)
Inductive Outcome : Type :=
  | Pending      (* the source has not terminated yet *)
  | Terminated   (* the source completed or errored *)
  | Cancelled.   (* the consumer unsubscribed on one of its values *)

(** Forwarding the script of the active source (spec 4.1, step 3): values go
    straight to the consumer, [error] and [complete] alike end the source
    and reach nobody. *)
Fixpoint spec_forward cancels (script received : list (Notification T))
    : list (Notification T) * Outcome :=
  match script with
  | [] => (received, Pending)
  | Next value :: script' =>
      let received' := received ++ [Next value] in
      if cancels received' then (received', Cancelled)
      else spec_forward cancels script' received'
  | Error _ :: _ => (received, Terminated)
  | Complete :: _ => (received, Terminated)
  end.

Record Observed : Type := mkObserved {
  o_received : list (Notification T);
  o_remaining : list (ObservableInput T);
  o_subscribed : nat;
  o_closed : bool;
}.

Definition observe (st : State T) : Observed :=
  mkObserved (received st) (remaining st) (length (inners st)) (closed st).

(** Advancement (spec 4.1, steps 2-5) from a queue [q]. *)
Fixpoint spec_advance cancels (q : list (ObservableInput T))
    (received : list (Notification T)) (subscribed : nat) : Observed :=
  match q with
  | [] => mkObserved (received ++ [Complete]) [] subscribed true
  | e :: rest =>
      match innerFrom e with
      | None => spec_advance cancels rest received subscribed
      | Some o =>
          match spec_forward cancels (emits o) received with
          | (received', Pending) => mkObserved received' rest (S subscribed) false
          | (received', Terminated) => spec_advance cancels rest received' (S subscribed)
          | (received', Cancelled) => mkObserved received' rest (S subscribed) true
          end
      end
  end.

(** One event.  Only the source subscribed last can be active. *)
Definition spec_step cancels (a : Observed) (ev : Event T) : Observed :=
  if o_closed a then a
  else
    match ev with
    | Unsubscribe => mkObserved (o_received a) (o_remaining a) (o_subscribed a) true
    | Emit i n =>
        if bool_decide (S i = o_subscribed a) then
          match n with
          | Next value =>
              let received' := o_received a ++ [Next value] in
              mkObserved received' (o_remaining a) (o_subscribed a) (cancels received')
          | Error _ => spec_advance cancels (o_remaining a) (o_received a) (o_subscribed a)
          | Complete => spec_advance cancels (o_remaining a) (o_received a) (o_subscribed a)
          end
        else a
    end.

Definition spec_run cancels (a : Observed) (evs : list (Event T)) : Observed :=
  foldl (spec_step cancels) a evs.

Definition spec_subscribe cancels (ns : list (ObservableInput T))
    (src : ObservableInput T) : Observed :=
  spec_advance cancels (src :: ns) [] 0.

(** ** Scenarios *)

(** A consumer that never unsubscribes on a value. *)
Definition never_cancels (l : list (Notification T)) : bool := false.

(** A source is described by its whole script and by how much of it it
    pushes during the [subscribe] call: [sync_part k script] is the
    observable input, [async_part i k script] the events that follow when
    it is subscribed through inner subscriber [i]. *)
Definition sync_part (k : nat) (script : list (Notification T)) : ObservableInput T :=
  Input (mkObservable (take k script)).

Definition async_part (i k : nat) (script : list (Notification T)) : list (Event T) :=
  Emit i <$> drop k script.

(** [error] or [complete]. *)
Definition terminal (n : Notification T) : Prop :=
  match n with Next _ => False | _ => True end.

(** A source that terminates during [subscribe] before any value. *)
Definition immediately (p : Notification T → bool) (e : ObservableInput T) : Prop :=
  ∃ n script, e = Input (mkObservable (n :: script)) ∧ p n = true.

Definition erroring (err : T) : ObservableInput T := Input (mkObservable [Error err]).

Definition completing : ObservableInput T := Input (mkObservable [Complete]).

(** Inner subscribers are numbered in creation order: when one more source
    is subscribed at position [p], the events of the later ones move up by
    one. *)
Definition renumber (p : nat) (ev : Event T) : Event T :=
  match ev with
  | Emit i n => Emit (if bool_decide (i < p) then i else S i) n
  | Unsubscribe => Unsubscribe
  end.

(** What the consumer sees of a subscription. *)
Definition visible (st : State T) : list (Notification T) * bool :=
  (received st, closed st).

(** Two subscriptions that differ in one queue entry, [Invalid] in the
    first and a source that errors at once in the second, [p] inner
    subscribers being created before that entry is reached: either the
    entry is still in both queues, or it is behind and the second
    subscription has created one inner subscriber more. *)
Definition related (post : list (ObservableInput T)) (err : T) (p : nat)
    (a1 a2 : Observed) : Prop :=
  o_received a1 = o_received a2 ∧ o_closed a1 = o_closed a2 ∧
  ((∃ x, o_remaining a1 = x ++ Invalid :: post ∧
         o_remaining a2 = x ++ erroring err :: post ∧
         o_subscribed a2 = o_subscribed a1 ∧
         o_subscribed a1 + length (omap innerFrom x) = p) ∨
   (o_remaining a1 = o_remaining a2 ∧
    o_subscribed a2 = S (o_subscribed a1) ∧
    (o_closed a1 = true ∨ p < o_subscribed a1))).

(** ** Further notions *)

(** A script cut after its first terminal notification, that notification
    written as [complete]. *)
Fixpoint canon (script : list (Notification T)) : list (Notification T) :=
  match script with
  | [] => []
  | Next value :: script' => Next value :: canon script'
  | Error _ :: _ => [Complete]
  | Complete :: _ => [Complete]
  end.

Definition canon_input (e : ObservableInput T) : ObservableInput T :=
  match e with
  | Invalid => Invalid
  | Input o => Input (mkObservable (canon (emits o)))
  end.

Definition canon_event (ev : Event T) : Event T :=
  match ev with
  | Emit i (Error _) => Emit i Complete
  | _ => ev
  end.

Definition canon_observed (a : Observed) : Observed :=
  mkObserved (o_received a) (canon_input <$> o_remaining a) (o_subscribed a) (o_closed a).

(** The values a script pushes before its first terminal notification, and
    whether it has one. *)
Fixpoint script_values (script : list (Notification T)) : list T :=
  match script with
  | Next value :: script' => value :: script_values script'
  | _ => []
  end.

Fixpoint script_terminates (script : list (Notification T)) : bool :=
  match script with
  | [] => false
  | Next _ :: script' => script_terminates script'
  | Error _ :: _ => true
  | Complete :: _ => true
  end.

(** The same for a queue entry, during [subscribe]: an entry that does not
    convert pushes nothing and is done with at once. *)
Definition input_values (e : ObservableInput T) : list T :=
  match innerFrom e with
  | Some o => script_values (emits o)
  | None => []
  end.

Definition input_finishes (e : ObservableInput T) : bool :=
  match innerFrom e with
  | Some o => script_terminates (emits o)
  | None => true
  end.

(** The consumer has not unsubscribed on anything delivered in [r]. *)
Definition quiet cancels (r : list (Notification T)) : Prop :=
  ∀ l, l ≠ [] → l `prefix_of` r → cancels l = false.

(** Either the consumer never unsubscribed on a value, or it did so on the
    last notification delivered and [subscriber] is closed. *)
Definition heeded cancels (a : Observed) : Prop :=
  ∃ r0, quiet cancels r0 ∧
        (o_received a = r0 ∨ (o_closed a = true ∧ ∃ x, o_received a = r0 ++ [x])).

(** A consumer that unsubscribes on the [n]-th notification it receives, as
    [take(n)] does. *)
Definition takes (n : nat) (l : list (Notification T)) : bool :=
  Nat.eqb (length l) n.

(** A state transformer that leaves as many activations in progress as it
    found and nests at most [B] more. *)
Definition metered (B : nat) (f : State T → State T) : Prop :=
  ∀ s, depth (f s) = depth s ∧ max_depth s ≤ max_depth (f s) ∧
       max_depth (f s) ≤ Nat.max (max_depth s) (depth s + B).

(** A well-behaved source with its timing: the values it pushes, the
    notification it ends with, and how many notifications of its script it
    pushes during [subscribe]. *)
Definition timed_script (x : list T * Notification T * nat) : list (Notification T) :=
  (Next <$> x.1.1) ++ [x.1.2].

Definition timed_inputs (xs : list (list T * Notification T * nat))
    : list (ObservableInput T) :=
  (λ x, sync_part x.2 (timed_script x)) <$> xs.

(** The events of a list of such sources, each pushing the rest of its
    script once it is subscribed, the first through inner subscriber [c]. *)
Fixpoint timed_events (c : nat) (xs : list (list T * Notification T * nat))
    : list (Event T) :=
  match xs with
  | [] => []
  | x :: xs' => async_part c x.2 (timed_script x) ++ timed_events (S c) xs'
  end.

(** Nothing was taken off the queue, no inner subscriber was created and
    nothing was delivered between [st] and [st'], and [subscriber] is
    closed. *)
Definition frozen (st st' : State T) : Prop :=
  closed st' = true ∧ remaining st' = remaining st ∧
  received st' = received st ∧ length (inners st') = length (inners st).

End Invariants.

(** ** Basic facts *)

Section Facts.

Context {T : Type}.

Implicit Types (st : State T) (K : State T → State T).
Implicit Types (q ns : list (ObservableInput T)) (src e : ObservableInput T).
Implicit Types (tds : list Teardown) (o : Observable T).
Implicit Types (cancels : list (Notification T) → bool).
Implicit Types (ph : Phase) (u : bool).

Lemma subscribeNext_from_closed cancels q st :
  closed st = true → subscribeNext_from cancels q st = subscribeNext_closed st.
Proof. intros Hc. destruct q; simpl; rewrite Hc; reflexivity. Qed.

Lemma guarded_from cancels q : guarded (subscribeNext_from cancels q).
Proof. intros st Hc. by apply subscribeNext_from_closed. Qed.

Lemma guarded_subscribeNext cancels : guarded (subscribeNext cancels).
Proof. intros st Hc. by apply subscribeNext_from_closed. Qed.

(** [sound] reads six components of the store only. *)
Lemma sound_same cancels u ns src st st' :
  nextSources st' = nextSources st →
  remaining st' = remaining st →
  inner_source <$> inners st' = inner_source <$> inners st →
  received st' = received st →
  closed st' = closed st →
  max_alive st' = max_alive st →
  sound cancels u ns src st → sound cancels u ns src st'.
Proof.
  intros E1 E2 E3 E4 E5 E6 [H1 H2 H3 H4 H5].
  split; rewrite ?E1, ?E2, ?E3, ?E4, ?E5, ?E6; try done.
  unfold closed_because in *. by rewrite E4.
Qed.

Lemma sound_weaken cancels u ns src st :
  sound cancels u ns src st → sound cancels true ns src st.
Proof.
  intros [H1 H2 H3 H4 H5]. split; try done.
  intros _. right. by right.
Qed.

Lemma sound_bump cancels u ns src st :
  sound cancels u ns src st → sound cancels u ns src (subscribeNext_closed st).
Proof. by apply sound_same. Qed.

Lemma in_phase_bump ph st : in_phase ph st → in_phase ph (subscribeNext_closed st).
Proof. by destruct ph. Qed.

Lemma in_phase_enter ph st : in_phase ph st → in_phase ph (enter st).
Proof. by destruct ph. Qed.

Lemma in_phase_leave ph st : in_phase ph st → in_phase ph (leave st).
Proof. by destruct ph. Qed.

Lemma finalized_lookup (l : list (InnerSubscriber T)) i s :
  Forall finalized l → l !! i = Some s → inner_closed s = true.
Proof. intros Hl Hi. by destruct (proj1 (Forall_lookup _ l) Hl i s Hi). Qed.

(** An inner subscriber that is closed, or that does not exist, ignores
    [unsubscribe()] and whatever is pushed into it. *)
Lemma unsubscribeInner_finalized K i st :
  Forall finalized (inners st) → unsubscribeInner K i st = st.
Proof.
  intros Hl. unfold unsubscribeInner.
  destruct (inners st !! i) as [s|] eqn:Hi; [|done].
  by rewrite (finalized_lookup _ _ _ Hl Hi).
Qed.

Lemma innerNotify_finalized cancels K i n st :
  Forall finalized (inners st) → innerNotify cancels K i n st = st.
Proof.
  intros Hl. unfold innerNotify.
  destruct (inners st !! i) as [s|] eqn:Hi; [|done].
  by rewrite (finalized_lookup _ _ _ Hl Hi).
Qed.

Lemma subscribed_lookup tds i st :
  subscribed tds i st →
  ∃ l o, inners st = l ++ [mkInner false tds o] ∧ length l = i ∧
         Forall finalized l ∧ inners st !! i = Some (mkInner false tds o).
Proof.
  intros (_ & _ & l & o & Hl & Hi & Hf). exists l, o. repeat split; try done.
  rewrite Hl, <- Hi. apply list_lookup_middle. done.
Qed.

Lemma subscribed_other tds i j st :
  subscribed tds i st → j ≠ i →
  match inners st !! j with Some s => inner_closed s = true | None => True end.
Proof.
  intros (l & o & Hl & Hi & Hf & _)%subscribed_lookup Hj.
  destruct (inners st !! j) as [s|] eqn:Hs; [|done].
  rewrite Hl in Hs. apply lookup_app_Some in Hs as [Hs|[Hge Hs]].
  - by eapply finalized_lookup.
  - destruct (j - length l) as [|k] eqn:Hk; [lia|]. by destruct k.
Qed.

(** [innerSub.unsubscribe()] on the open inner subscriber: it is
    finalized first, then its teardowns run. *)
Lemma unsubscribeInner_subscribed cancels u ns src K tds i st :
  sound cancels u ns src st → subscribed tds i st →
  ∃ st1, unsubscribeInner K i st = foldl (λ st' t, execTeardown K t st') st1 tds ∧
         sound cancels u ns src st1 ∧ in_phase Advancing st1 ∧
         remaining st1 = remaining st ∧ received st1 = received st ∧
         length (inners st1) = S i ∧
         depth st1 = depth st ∧ max_depth st1 = max_depth st.
Proof.
  intros Hs Hsub.
  destruct (subscribed_lookup _ _ _ Hsub) as (l & o & Hl & Hi & Hf & Hlk).
  destruct Hsub as (Hc & Htd & _). subst i.
  unfold unsubscribeInner. rewrite Hlk. simpl.
  eexists. split; [reflexivity|].
  rewrite Hl, Htd.
  rewrite insert_app_r_alt, Nat.sub_diag by lia. simpl.
  rewrite filter_cons_False, filter_nil by (intros ?; done).
  split_and!; simpl; try done.
  - eapply sound_same; [..|exact Hs]; simpl; try done.
    by rewrite Hl, !fmap_app.
  - apply Forall_app. split; [done|]. by repeat constructor.
  - rewrite length_app. simpl. lia.
Qed.

Lemma finalized_not_alive (l : list (InnerSubscriber T)) :
  Forall finalized l → filter (λ s, inner_closed s = false) l = [].
Proof.
  induction 1 as [|s l [Hs _] _ IH]; [done|].
  rewrite filter_cons_False; [done|]. by rewrite Hs.
Qed.

Lemma unsubscribeInner_last K l tds o st :
  inners st = l ++ [mkInner false tds o] →
  unsubscribeInner K (length l) st =
    foldl (λ st' t, execTeardown K t st')
      (set_teardowns (filter (λ j, j ≠ length l) (teardowns st))
         (set_inners (l ++ [mkInner true [] o]) st)) tds.
Proof.
  intros Hl. unfold unsubscribeInner.
  rewrite Hl, list_lookup_middle by done. simpl.
  by rewrite insert_app_r_alt, Nat.sub_diag by lia.
Qed.

Lemma sound_enter cancels u ns src st :
  sound cancels u ns src st → sound cancels u ns src (enter st).
Proof. by apply sound_same. Qed.

Lemma sound_leave cancels u ns src st :
  sound cancels u ns src st → sound cancels u ns src (leave st).
Proof. by apply sound_same. Qed.

(** [subscriber.unsubscribe()] while [subscriber] is open: the inner
    subscriber it owns is finalized; a [subscribeNext] registered on it
    runs, finds [subscriber] closed and returns. *)
Lemma unsubscribe_open cancels u ns src K ph st :
  guarded K → sound cancels u ns src st → in_phase ph st → closed st = false →
  closed_because cancels u st →
  let st' := unsubscribe K st in
  sound cancels u ns src st' ∧ in_phase Done st' ∧
  remaining st' = remaining st ∧ received st' = received st ∧
  length (inners st') = length (inners st).
Proof.
  intros HK Hs Hph Hc Hwhy. unfold unsubscribe. rewrite Hc.
  assert (Hsub : ∀ tds i, subscribed tds i st → tds = [] ∨ tds = [SubscribeNext] →
    let st' := foldl (λ st' j, unsubscribeInner K j st')
                 (set_teardowns [] (set_closed true st)) (teardowns st) in
    sound cancels u ns src st' ∧ in_phase Done st' ∧
    remaining st' = remaining st ∧ received st' = received st ∧
    length (inners st') = length (inners st)).
  { intros tds i Hsub Htds.
    destruct (subscribed_lookup _ _ _ Hsub) as (l & o & Hl & Hi & Hf & _).
    destruct Hsub as (_ & Htd & _). subst i. rewrite Htd. simpl.
    rewrite (unsubscribeInner_last K l tds o) by done. simpl.
    set (st1 := set_teardowns _ _).
    assert (sound cancels u ns src st1 ∧ in_phase Done st1 ∧
            remaining st1 = remaining st ∧ received st1 = received st ∧
            length (inners st1) = length (inners st)) as (S1 & S2 & S3 & S4 & S5).
    { subst st1. split_and!; simpl; try done.
      - destruct Hs as [H1 H2 H3 H4 H5]. split; simpl; try done.
        + rewrite Hl in H2. by rewrite !fmap_app in H2 |- *.
        + destruct H3 as [H3|(H3 & _ & H3')]; [by left|by right].
      - split_and!; try done.
        apply Forall_app. split; [done|]. by repeat constructor.
      - rewrite Hl, !length_app. done. }
    destruct Htds as [->| ->]; simpl; [done|].
    rewrite HK by apply S2.
    destruct S2 as (? & ? & ?).
    split_and!; simpl; try done. by apply sound_bump. }
  destruct ph; simpl in Hph.
  - destruct Hph as (_ & Htd & Hf). rewrite Htd. simpl.
    split_and!; simpl; try done.
    destruct Hs as [H1 H2 H3 H4 H5]. split; simpl; try done.
    destruct H3 as [H3|(H3 & _ & H3')]; [by left|by right].
  - eapply Hsub; eauto.
  - eapply Hsub; eauto.
  - destruct Hph as (Hc' & _). congruence.
Qed.

(** [subscriber.next(value)] while [subscriber] is open. *)
Lemma subscriberNext_open cancels u ns src K ph v st :
  guarded K → sound cancels u ns src st → in_phase ph st → closed st = false →
  let st' := subscriberNext cancels K v st in
  sound cancels u ns src st' ∧
  (if cancels (received st ++ [Next v]) then in_phase Done st' else in_phase ph st') ∧
  remaining st' = remaining st ∧ length (inners st') = length (inners st) ∧
  received st' = received st ++ [Next v].
Proof.
  intros HK Hs Hph Hc. unfold subscriberNext. rewrite Hc.
  set (st1 := set_received _ _).
  assert (S1 : sound cancels u ns src st1).
  { destruct Hs as [H1 H2 H3 H4 H5]. split; simpl; try done.
    - left. destruct H3 as [[vs H3]|(_ & H3 & _)]; [|congruence].
      exists (vs ++ [v]). by rewrite H3, fmap_app.
    - intros. congruence. }
  assert (S2 : in_phase ph st1) by (by destruct ph).
  change (received st1) with (received st ++ [Next v]).
  destruct (cancels (received st ++ [Next v])) eqn:Hcan.
  - destruct (unsubscribe_open cancels u ns src K ph st1 HK S1 S2 Hc)
      as (U1 & U2 & U3 & U4 & U5).
    { right. left. by exists (received st1). }
    split_and!; auto.
  - split_and!; auto.
Qed.

(** [subscriber.complete()] once the queue is empty. *)
Lemma subscriberComplete_advancing cancels u ns src K st :
  sound cancels u ns src st → in_phase Advancing st → remaining st = [] →
  let st' := subscriberComplete K st in
  sound cancels u ns src st' ∧ in_phase Done st' ∧
  received st' = received st ++ [Complete] ∧ remaining st' = [] ∧
  length (inners st') = length (inners st) ∧
  depth st' = depth st ∧ max_depth st' = max_depth st.
Proof.
  intros Hs (Hc & Htd & Hf) Hq. unfold subscriberComplete, unsubscribe.
  rewrite Hc. simpl. rewrite Hc, Htd. simpl.
  destruct Hs as [H1 H2 H3 H4 H5].
  assert (Hv : values_then_complete (received st ++ [Complete])).
  { destruct H3 as [[vs H3]|(_ & H3 & _)]; [|congruence].
    exists vs. by rewrite H3. }
  split_and!; try done. split; simpl; try done.
  - by right.
  - intros _. by left.
Qed.

Lemma subscribed_length tds i st : subscribed tds i st → length (inners st) = S i.
Proof.
  intros (_ & _ & l & o & -> & <- & _). rewrite length_app. simpl. lia.
Qed.

Lemma innerNotify_script_finalized cancels K i script st :
  Forall finalized (inners st) →
  foldl (λ st' n, innerNotify cancels K i n st') st script = st.
Proof.
  intros Hf. induction script as [|n script IH]; simpl; [done|].
  by rewrite innerNotify_finalized.
Qed.

(** [nextSource.subscribe(innerSub)]: the synchronous script of the source
    is forwarded as the spec says. *)
Lemma subscribeSource_forward cancels u ns src K o i st :
  guarded K → sound cancels u ns src st → in_phase (Subscribing i) st →
  let st' := subscribeSource cancels K o i st in
  sound cancels u ns src st' ∧ remaining st' = remaining st ∧
  length (inners st') = S i ∧
  received st' = (spec_forward cancels (emits o) (received st)).1 ∧
  match (spec_forward cancels (emits o) (received st)).2 with
  | Pending => in_phase (Subscribing i) st'
  | Terminated => in_phase Advancing st'
  | Cancelled => in_phase Done st'
  end.
Proof.
  intros HK. unfold subscribeSource.
  generalize (emits o). intros script. revert st.
  induction script as [|n script IH]; intros st Hs Hph; simpl.
  { split_and!; try done. by eapply subscribed_length. }
  destruct (subscribed_lookup _ _ _ Hph) as (l & o' & Hl & Hi & Hf & Hlk).
  assert (Hc : closed st = false) by apply Hph.
  assert (Hlen : length (inners st) = S i) by (by eapply subscribed_length).
  assert (Hterm :
    let st' := foldl (λ st' n, innerNotify cancels K i n st')
                 (unsubscribeInner K i st) script in
    sound cancels u ns src st' ∧ remaining st' = remaining st ∧
    length (inners st') = S i ∧ received st' = received st ∧
    in_phase Advancing st').
  { destruct (unsubscribeInner_subscribed cancels u ns src K [] i st)
      as (st1 & -> & U1 & U2 & U3 & U4 & U5 & _); try done.
    simpl. rewrite innerNotify_script_finalized by apply U2. done. }
  assert (Hn : innerNotify cancels K i n st =
               match n with
               | Next v => subscriberNext cancels K v st
               | _ => unsubscribeInner K i st
               end).
  { unfold innerNotify. rewrite Hlk. simpl. by destruct n. }
  rewrite Hn. destruct n as [v|err|]; simpl; [|apply Hterm..].
  destruct (subscriberNext_open cancels u ns src K (Subscribing i) v st)
    as (N1 & N2 & N3 & N4 & N5); try done.
  destruct (cancels (received st ++ [Next v])) eqn:Hcan; simpl.
  - rewrite innerNotify_script_finalized by apply N2.
    split_and!; first [done | apply N2 | congruence].
  - destruct (IH _ N1 N2) as (I1 & I2 & I3 & I4 & I5).
    rewrite N5 in I4, I5. split_and!; try done. congruence.
Qed.

Lemma subscriberAdd_during K i st : during i st → subscriberAdd K i st = st.
Proof.
  intros [[Hph|[Hph|Hph]] Hlen]; unfold subscriberAdd.
  - destruct (subscribed_lookup _ _ _ Hph) as (l & o & Hl & Hi & Hf & Hlk).
    destruct Hph as (Hc & Htd & _). rewrite Hc, Hlk, Htd. simpl.
    rewrite bool_decide_true; [done|]. apply list_elem_of_singleton. done.
  - destruct Hph as (Hc & Htd & Hf). rewrite Hc.
    destruct (inners st !! i) as [s|] eqn:Hs; [|done].
    by rewrite (finalized_lookup _ _ _ Hf Hs).
  - destruct Hph as (Hc & Htd & Hf). rewrite Hc.
    by apply unsubscribeInner_finalized.
Qed.

(** [innerSub.add(subscribeNext)]: registered if the inner subscriber is
    still open, run at once if it has finalized. *)
Lemma innerAdd_subscribing cancels u ns src K i st :
  sound cancels u ns src st → in_phase (Subscribing i) st →
  let st' := innerAdd K i SubscribeNext st in
  sound cancels u ns src st' ∧ in_phase (Active i) st' ∧ observe st' = observe st.
Proof.
  intros Hs Hph.
  destruct (subscribed_lookup _ _ _ Hph) as (l & o & Hl & Hi & Hf & Hlk).
  destruct Hph as (Hc & Htd & _). subst i.
  unfold innerAdd. rewrite Hlk. simpl.
  rewrite Hl, insert_app_r_alt, Nat.sub_diag by lia. simpl.
  split_and!.
  - eapply sound_same; [..|exact Hs]; simpl; try done.
    by rewrite Hl, !fmap_app.
  - split_and!; simpl; try done. by exists l, o.
  - unfold observe. simpl. by rewrite Hl, !length_app.
Qed.

Lemma innerAdd_finalized K i st :
  Forall finalized (inners st) → length (inners st) = S i →
  innerAdd K i SubscribeNext st = K st.
Proof.
  intros Hf Hlen. unfold innerAdd.
  destruct (lookup_lt_is_Some_2 (inners st) i) as [s Hlk]; [lia|].
  by rewrite Hlk, (finalized_lookup _ _ _ Hf Hlk).
Qed.

(** Lines 92 and 102 once the front entry has been converted: the entry is
    off the queue and a fresh inner subscriber is open. *)
Lemma newOperatorSubscriber_advancing cancels u ns src K e o rest st :
  sound cancels u ns src st → in_phase Advancing st →
  remaining st = e :: rest → innerFrom e = Some o →
  ∃ st2, newOperatorSubscriber K o (set_remaining rest st) = (length (inners st), st2) ∧
         sound cancels u ns src st2 ∧
         in_phase (Subscribing (length (inners st))) st2 ∧
         remaining st2 = rest ∧ received st2 = received st ∧
         depth st2 = depth st ∧ max_depth st2 = max_depth st.
Proof.
  intros Hs (Hc & Htd & Hf) Hq He.
  unfold newOperatorSubscriber, subscriberAdd. simpl.
  rewrite Hc, list_lookup_middle by done. simpl. rewrite Htd. simpl.
  eexists. split; [reflexivity|].
  split_and!; try done.
  - destruct Hs as [H1 H2 H3 H4 H5]. split; simpl; try done.
    + destruct H2 as (consumed & H2 & H2'). exists (consumed ++ [e]). split.
      * by rewrite <- H2, Hq, <- app_assoc.
      * rewrite fmap_app, omap_app, H2'. simpl. by rewrite He.
    + destruct H3 as [H3|(_ & H3 & _)]; [by left|congruence].
    + unfold alive. simpl. rewrite filter_app, finalized_not_alive by done.
      simpl. lia.
  - split_and!; simpl; try done. by exists (inners st), o.
Qed.

(** The three branches of [subscribeNext] when [subscriber] is open. *)
Lemma subscribeNext_from_nil cancels st :
  closed st = false →
  subscribeNext_from cancels [] st =
    leave (subscriberComplete subscribeNext_closed (enter st)).
Proof. intros Hc. simpl. by rewrite Hc. Qed.

Lemma subscribeNext_from_invalid cancels e rest st :
  closed st = false → innerFrom e = None →
  subscribeNext_from cancels (e :: rest) st =
    leave (subscribeNext_from cancels rest (set_remaining rest (enter st))).
Proof. intros Hc He. simpl. by rewrite Hc, He. Qed.

Lemma subscribeNext_from_input cancels e o rest st :
  closed st = false → innerFrom e = Some o →
  subscribeNext_from cancels (e :: rest) st =
    leave
      (let K := subscribeNext_from cancels rest in
       let st2 := newOperatorSubscriber K o (set_remaining rest (enter st)) in
       innerAdd K st2.1 SubscribeNext
         (subscriberAdd K st2.1 (subscribeSource cancels K o st2.1 st2.2))).
Proof. intros Hc He. simpl. rewrite Hc, He. reflexivity. Qed.

Lemma quiescent_leave st : quiescent st → quiescent (leave st).
Proof.
  intros [[i Hi]|Hd]; [left; exists i|right].
  - by apply (in_phase_leave (Active i)).
  - by apply (in_phase_leave Done).
Qed.

Lemma quiescent_bump st : quiescent st → quiescent (subscribeNext_closed st).
Proof.
  intros [[i Hi]|Hd]; [left; exists i|right].
  - by apply (in_phase_bump (Active i)).
  - by apply (in_phase_bump Done).
Qed.

(** An activation of [subscribeNext] that finds [subscriber] open and no
    inner subscriber open: it leaves the subscription [Active] or [Done],
    and what can be observed of the store is what the spec's advancement
    computes. *)
Lemma subscribeNext_from_sound cancels u ns src q st :
  sound cancels u ns src st → in_phase Advancing st → remaining st = q →
  let st' := subscribeNext_from cancels q st in
  sound cancels u ns src st' ∧ quiescent st' ∧
  observe st' = spec_advance cancels q (received st) (length (inners st)).
Proof.
  revert st. induction q as [|e rest IH]; intros st Hs Hph Hq.
  - assert (Hc : closed st = false) by apply Hph.
    cbv zeta. rewrite subscribeNext_from_nil by done.
    destruct (subscriberComplete_advancing cancels u ns src subscribeNext_closed (enter st))
      as (C1 & C2 & C3 & C4 & C5 & _);
      [by apply sound_enter|by apply (in_phase_enter Advancing)|done|].
    split_and!; [by apply sound_leave|apply quiescent_leave; by right|].
    unfold observe. simpl. rewrite C3, C4, C5. f_equal. apply C2.
  - assert (Hc : closed st = false) by apply Hph.
    cbv zeta. simpl spec_advance.
    destruct (innerFrom e) as [o|] eqn:He.
    + rewrite (subscribeNext_from_input _ _ o) by done.
      set (K := subscribeNext_from cancels rest).
      assert (HK : guarded K) by apply guarded_from.
      destruct (newOperatorSubscriber_advancing cancels u ns src K e o rest (enter st))
        as (st2 & E2 & S2 & P2 & Q2 & R2 & _);
        [by apply sound_enter|by apply (in_phase_enter Advancing)|done..|].
      cbv zeta. simpl in E2, P2, R2. rewrite E2. simpl.
      set (i := length (inners st)) in *.
      destruct (subscribeSource_forward cancels u ns src K o i st2 HK S2 P2)
        as (S3 & Q3 & L3 & R3 & P3).
      rewrite R2 in R3, P3.
      destruct (spec_forward cancels (emits o) (received st)) as [r out].
      simpl in R3, P3.
      set (st3 := subscribeSource cancels K o i st2) in *.
      destruct out.
      * rewrite subscriberAdd_during by (split; auto).
        destruct (innerAdd_subscribing cancels u ns src K i st3 S3 P3) as (A1 & A2 & A3).
        split_and!; [by apply sound_leave|apply quiescent_leave; left; by exists i|].
        change (observe (leave ?x)) with (observe x). rewrite A3.
        unfold observe. rewrite R3, Q3, Q2, L3. f_equal. apply P3.
      * rewrite subscriberAdd_during by (split; auto).
        rewrite innerAdd_finalized by (done || apply P3).
        destruct (IH st3 S3 P3) as (I1 & I2 & I3); [congruence|].
        split_and!; [by apply sound_leave|by apply quiescent_leave|].
        change (observe (leave ?x)) with (observe x).
        fold K in I3. by rewrite I3, R3, L3.
      * rewrite subscriberAdd_during by (split; auto).
        rewrite innerAdd_finalized by (done || apply P3).
        rewrite !HK by apply P3.
        split_and!; [by apply sound_leave, sound_bump|
                     apply quiescent_leave, quiescent_bump; right; apply P3|].
        unfold observe. simpl. rewrite R3, Q3, Q2, L3. f_equal. apply P3.
    + rewrite subscribeNext_from_invalid by done.
      destruct (IH (set_remaining rest (enter st))) as (I1 & I2 & I3); [|done..|].
      * destruct Hs as [H1 H2 H3 H4 H5]. split; simpl; try done.
        -- destruct H2 as (consumed & H2 & H2'). exists (consumed ++ [e]). split.
           ++ by rewrite <- H2, Hq, <- app_assoc.
           ++ rewrite omap_app. simpl. rewrite He. simpl. by rewrite app_nil_r.
        -- destruct H3 as [H3|(_ & H3 & _)]; [by left|congruence].
      * split_and!; [by apply sound_leave|by apply quiescent_leave|done].
Qed.

Lemma initial_sound cancels ns src :
  sound cancels false ns src (initial ns src) ∧ in_phase Advancing (initial ns src).
Proof.
  split; [|done]. split; simpl; try done; try lia.
  - by exists [].
  - left. by exists [].
Qed.

(** A notification pushed into an inner subscriber after [subscribe] has
    returned. *)
Lemma step_emit_sound cancels u ns src i n st :
  sound cancels u ns src st → quiescent st →
  let st' := step cancels st (Emit i n) in
  sound cancels u ns src st' ∧ quiescent st' ∧
  observe st' = spec_step cancels (observe st) (Emit i n).
Proof.
  intros Hs [[j Hj]|Hd]; simpl.
  - assert (Hc : closed st = false) by apply Hj.
    pose proof (subscribed_length _ _ _ Hj) as Hlen.
    unfold spec_step. simpl. rewrite Hc, Hlen.
    destruct (decide (i = j)) as [->|Hne].
    + rewrite bool_decide_true by done.
      destruct (subscribed_lookup _ _ _ Hj) as (l & o & Hl & Hi & Hf & Hlk).
      unfold innerNotify. rewrite Hlk. simpl.
      assert (Hterm :
        let st' := unsubscribeInner (subscribeNext cancels) j st in
        sound cancels u ns src st' ∧ quiescent st' ∧
        observe st' = spec_advance cancels (remaining st) (received st) (S j)).
      { destruct (unsubscribeInner_subscribed cancels u ns src (subscribeNext cancels)
                    [SubscribeNext] j st) as (st1 & -> & U1 & U2 & U3 & U4 & U5 & _); try done.
        simpl. rewrite <- U3, <- U4, <- U5. by apply subscribeNext_from_sound. }
      destruct n as [v|err|]; try done.
      destruct (subscriberNext_open cancels u ns src (subscribeNext cancels) (Active j) v st)
        as (N1 & N2 & N3 & N4 & N5); try done; [apply guarded_subscribeNext|].
      unfold observe. rewrite N3, N4, N5, Hlen.
      destruct (cancels (received st ++ [Next v])).
      * split_and!; [done|by right|]. f_equal. apply N2.
      * split_and!; [done|left; by exists j|]. f_equal. apply N2.
    + rewrite bool_decide_false by lia.
      pose proof (subscribed_other _ _ _ _ Hj Hne) as Ho.
      unfold innerNotify. destruct (inners st !! i) as [s|]; [rewrite Ho|];
        (split_and!; [done|left; by exists j|done]).
  - rewrite innerNotify_finalized by apply Hd.
    split_and!; [done|by right|].
    unfold spec_step. simpl. by destruct Hd as (-> & _).
Qed.

(** The consumer unsubscribes. *)
Lemma step_unsubscribe_sound cancels u ns src st :
  sound cancels u ns src st → quiescent st →
  let st' := step cancels st Unsubscribe in
  sound cancels true ns src st' ∧ in_phase Done st' ∧
  observe st' = spec_step cancels (observe st) Unsubscribe.
Proof.
  intros Hs%sound_weaken [[j Hj]|Hd]; simpl.
  - assert (Hc : closed st = false) by apply Hj.
    destruct (unsubscribe_open cancels true ns src (subscribeNext cancels) (Active j) st)
      as (U1 & U2 & U3 & U4 & U5); try done.
    + apply guarded_subscribeNext.
    + right. by right.
    + split; [done|]. split; [done|].
      unfold spec_step, observe. simpl. rewrite Hc, U3, U4, U5. f_equal. apply U2.
  - unfold unsubscribe, spec_step. simpl. destruct Hd as (Hc & Hd). rewrite Hc. done.
Qed.

Lemma run_sound cancels u ns src evs st :
  sound cancels u ns src st → quiescent st →
  let st' := run cancels st evs in
  sound cancels (u || has_unsubscribe evs) ns src st' ∧ quiescent st' ∧
  observe st' = spec_run cancels (observe st) evs.
Proof.
  revert u st. induction evs as [|ev evs IH]; intros u st Hs Hq.
  - simpl. by rewrite orb_false_r.
  - destruct ev as [i n|]; cbv zeta; simpl.
    + destruct (step_emit_sound cancels u ns src i n st) as (S1 & S2 & S3); try done.
      simpl in S3. rewrite <- S3. by apply IH.
    + destruct (step_unsubscribe_sound cancels u ns src st) as (S1 & S2 & S3); try done.
      simpl in S3. rewrite <- S3.
      rewrite orb_true_r. destruct (IH true _ S1) as (I1 & I2 & I3); [by right|done].
Qed.

(** Every store a subscription can be in between two events satisfies the
    invariant, is [Active] or [Done], and shows what the spec's algorithm
    computes. *)
Lemma reachable_sound cancels ns src evs :
  let st := run cancels (onErrorResumeNext cancels ns src) evs in
  sound cancels (has_unsubscribe evs) ns src st ∧ quiescent st ∧
  observe st = spec_run cancels (spec_subscribe cancels ns src) evs.
Proof.
  destruct (initial_sound cancels ns src) as [I1 I2].
  destruct (subscribeNext_from_sound cancels false ns src _ _ I1 I2 eq_refl)
    as (S1 & S2 & S3).
  destruct (run_sound cancels false ns src evs _ S1 S2) as (R1 & R2 & R3).
  split; [done|]. split; [done|].
  etrans; [exact R3|]. f_equal. exact S3.
Qed.

(** ** The closure handed to the subscriptions

    [subscribeNext_from] hands [subscribeNext_from rest] (or
    [subscribeNext_closed]) to the subscriptions where the source hands them
    [subscribeNext] itself.  On every store the two agree: a teardown runs
    either under a closed [subscriber], where every guarded closure is
    [subscribeNext_closed], or from [innerSub.add] on line 104, where the
    queue in the store is [rest]. *)

Lemma teardowns_guarded K tds st :
  guarded K → closed st = true →
  let st' := foldl (λ s t, execTeardown K t s) st tds in
  st' = foldl (λ s t, execTeardown subscribeNext_closed t s) st tds ∧
  closed st' = true ∧ remaining st' = remaining st ∧ inners st' = inners st.
Proof.
  intros HK. revert st. induction tds as [|[] tds IH]; intros st Hc; simpl; [done|].
  rewrite HK by done.
  destruct (IH (subscribeNext_closed st)) as (I1 & I2 & I3 & I4); [done|].
  by split_and!.
Qed.

Lemma unsubscribeInner_guarded K i j st :
  guarded K → closed st = true →
  let st' := unsubscribeInner K j st in
  st' = unsubscribeInner subscribeNext_closed j st ∧
  closed st' = true ∧ remaining st' = remaining st ∧
  (unarmed i st → unarmed i st').
Proof.
  intros HK Hc. unfold unsubscribeInner.
  destruct (inners st !! j) as [s|] eqn:Hj; [|done].
  destruct (inner_closed s) eqn:Hs; [done|].
  set (st1 := set_teardowns _ _).
  destruct (teardowns_guarded K (inner_teardowns s) st1 HK Hc) as (I1 & I2 & I3 & I4).
  split_and!; try done.
  intros Hu x. rewrite I4. simpl. intros Hx Hopen.
  destruct (decide (j = i)) as [->|Hne].
  - rewrite list_lookup_insert_eq in Hx by (by eapply lookup_lt_Some).
    by simplify_eq.
  - rewrite list_lookup_insert_ne in Hx by done. by apply Hu.
Qed.

Lemma unsubscribe_children_guarded K i l st :
  guarded K → closed st = true →
  let st' := foldl (λ s j, unsubscribeInner K j s) st l in
  st' = foldl (λ s j, unsubscribeInner subscribeNext_closed j s) st l ∧
  closed st' = true ∧ remaining st' = remaining st ∧
  (unarmed i st → unarmed i st').
Proof.
  intros HK. revert st. induction l as [|j l IH]; intros st Hc; simpl; [done|].
  destruct (unsubscribeInner_guarded K i j st HK Hc) as (U1 & U2 & U3 & U4).
  destruct (IH (unsubscribeInner K j st) U2) as (I1 & I2 & I3 & I4).
  split_and!; try done.
  - by rewrite I1, U1.
  - congruence.
  - auto.
Qed.

Lemma unsubscribe_guarded K i st :
  guarded K →
  let st' := unsubscribe K st in
  st' = unsubscribe subscribeNext_closed st ∧ remaining st' = remaining st ∧
  (unarmed i st → unarmed i st').
Proof.
  intros HK. unfold unsubscribe. destruct (closed st); [done|].
  destruct (unsubscribe_children_guarded K i (teardowns st)
              (set_teardowns [] (set_closed true st)) HK eq_refl) as (U1 & _ & U3 & U4).
  by split_and!.
Qed.

Lemma subscriberComplete_guarded K st :
  guarded K → subscriberComplete K st = subscriberComplete subscribeNext_closed st.
Proof.
  intros HK. unfold subscriberComplete. destruct (closed st); [done|].
  apply (unsubscribe_guarded K 0 _ HK).
Qed.

Lemma innerNotify_unarmed cancels K i n st :
  guarded K → unarmed i st →
  let st' := innerNotify cancels K i n st in
  st' = innerNotify cancels subscribeNext_closed i n st ∧
  remaining st' = remaining st ∧ unarmed i st'.
Proof.
  intros HK Hu. unfold innerNotify.
  destruct (inners st !! i) as [s|] eqn:Hi; [|done].
  destruct (inner_closed s) eqn:Hs; [done|].
  assert (Hterm :
    let st' := unsubscribeInner K i st in
    st' = unsubscribeInner subscribeNext_closed i st ∧
    remaining st' = remaining st ∧ unarmed i st').
  { unfold unsubscribeInner. rewrite Hi, Hs, (Hu s Hi Hs). simpl.
    split_and!; try done. intros x. simpl.
    rewrite list_lookup_insert_eq by (by eapply lookup_lt_Some).
    intros ? ?. by simplify_eq. }
  destruct n as [v|err|]; [|done..].
  unfold subscriberNext. destruct (closed st); [done|].
  destruct (cancels _); [|done].
  destruct (unsubscribe_guarded K i (set_received (received st ++ [Next v]) st) HK)
    as (U1 & U2 & U3).
  split_and!; try done. by apply U3.
Qed.

Lemma subscribeSource_unarmed cancels K o i st :
  guarded K → unarmed i st →
  let st' := subscribeSource cancels K o i st in
  st' = subscribeSource cancels subscribeNext_closed o i st ∧
  remaining st' = remaining st ∧ unarmed i st'.
Proof.
  intros HK. unfold subscribeSource. generalize (emits o). intros script. revert st.
  induction script as [|n script IH]; intros st Hu; simpl; [done|].
  destruct (innerNotify_unarmed cancels K i n st HK Hu) as (N1 & N2 & N3).
  destruct (IH _ N3) as (I1 & I2 & I3).
  split_and!; try done.
  - by rewrite I1, N1.
  - congruence.
Qed.

Lemma subscriberAdd_unarmed K i st :
  guarded K → unarmed i st →
  let st' := subscriberAdd K i st in
  st' = subscriberAdd subscribeNext_closed i st ∧
  remaining st' = remaining st ∧ unarmed i st'.
Proof.
  intros HK Hu. unfold subscriberAdd.
  destruct (closed st) eqn:Hc.
  - destruct (unsubscribeInner_guarded K i i st HK Hc) as (U1 & _ & U3 & U4).
    split_and!; try done. by apply U4.
  - destruct (inners st !! i) as [s|]; [|done].
    destruct (inner_closed s); [done|]. by case_bool_decide.
Qed.

(** The equation of the source (lines 87-109): [subscribeNext] reads the
    queue from the store and hands itself to the subscriptions. *)
Lemma subscribeNext_unfold cancels st :
  subscribeNext cancels st =
    let st0 := enter st in
    leave
      (if closed st0 then st0
       else
         match remaining st0 with
         | e :: rest =>
             let st1 := set_remaining rest st0 in
             match innerFrom e with
             | None => subscribeNext cancels st1
             | Some nextSource =>
                 let '(innerSub, st2) :=
                   newOperatorSubscriber (subscribeNext cancels) nextSource st1 in
                 let st3 :=
                   subscribeSource cancels (subscribeNext cancels) nextSource innerSub st2 in
                 let st4 := subscriberAdd (subscribeNext cancels) innerSub st3 in
                 innerAdd (subscribeNext cancels) innerSub SubscribeNext st4
             end
         | [] => subscriberComplete (subscribeNext cancels) st0
         end).
Proof.
  unfold subscribeNext at 1. cbv zeta.
  change (remaining (enter st)) with (remaining st).
  change (closed (enter st)) with (closed st).
  destruct (remaining st) as [|e rest] eqn:Hq; simpl; destruct (closed st) eqn:Hc; try done.
  - f_equal. symmetry. apply subscriberComplete_guarded, guarded_subscribeNext.
  - destruct (innerFrom e) as [o|]; [|done]. f_equal.
    set (K1 := subscribeNext_from cancels rest).
    set (K2 := subscribeNext cancels).
    set (i := length (inners st)).
    assert (H1 : guarded K1) by apply guarded_from.
    assert (H2 : guarded K2) by apply guarded_subscribeNext.
    set (st1 := observe_alive _).
    assert (Hu1 : unarmed i st1).
    { intros x. simpl. rewrite list_lookup_middle by done. intros ? _. by simplify_eq. }
    destruct (subscriberAdd_unarmed K1 i st1 H1 Hu1) as (A1 & A2 & A3).
    destruct (subscriberAdd_unarmed K2 i st1 H2 Hu1) as (B1 & B2 & B3).
    rewrite B1, <- A1. clear B1 B2 B3.
    set (st2 := subscriberAdd K1 i st1) in *.
    destruct (subscribeSource_unarmed cancels K1 o i st2 H1 A3) as (C1 & C2 & C3).
    destruct (subscribeSource_unarmed cancels K2 o i st2 H2 A3) as (D1 & D2 & D3).
    rewrite D1, <- C1. clear D1 D2 D3.
    set (st3 := subscribeSource cancels K1 o i st2) in *.
    destruct (subscriberAdd_unarmed K1 i st3 H1 C3) as (E1 & E2 & E3).
    destruct (subscriberAdd_unarmed K2 i st3 H2 C3) as (F1 & F2 & F3).
    rewrite F1, <- E1. clear F1 F2 F3.
    set (st4 := subscriberAdd K1 i st3) in *.
    unfold innerAdd. destruct (inners st4 !! i) as [s|]; [|done].
    destruct (inner_closed s); [|done]. simpl.
    unfold K2, subscribeNext. by rewrite E2, C2, A2.
Qed.

(** ** Counting what was received *)

Lemma count_app p (l1 l2 : list (Notification T)) :
  count p (l1 ++ l2) = count p l1 + count p l2.
Proof. unfold count. by rewrite filter_app, length_app. Qed.

Lemma count_values p (vs : list T) :
  (∀ v, p (Next v) = false) → count p (Next <$> vs) = 0.
Proof.
  intros Hp. unfold count. induction vs as [|v vs IH]; [done|].
  simpl. rewrite filter_cons_False; [done|]. by rewrite Hp.
Qed.

Lemma complete_not_value (vs : list T) : Complete ∉ (Next <$> vs : list (Notification T)).
Proof. intros (v & Hv & _)%list_elem_of_fmap. done. Qed.

Lemma in_phase_done_alive st : in_phase Done st → alive st = 0.
Proof. intros (_ & _ & Hf). unfold alive. by rewrite finalized_not_alive. Qed.

Lemma in_phase_active_alive i st : in_phase (Active i) st → alive st = 1.
Proof.
  intros (_ & _ & l & o & Hl & _ & Hf). unfold alive.
  by rewrite Hl, filter_app, finalized_not_alive.
Qed.

Lemma quiescent_alive st :
  quiescent st → alive st = if closed st then 0 else 1.
Proof.
  intros [[i Hi]|Hd].
  - rewrite (in_phase_active_alive _ _ Hi). by destruct Hi as (-> & _).
  - rewrite (in_phase_done_alive _ Hd). by destruct Hd as (-> & _).
Qed.

Lemma quiescent_newest st :
  quiescent st → Forall finalized (take (length (inners st) - 1) (inners st)).
Proof.
  intros [[i (_ & _ & l & o & Hl & _ & Hf)]|(_ & _ & Hf)].
  - rewrite Hl, length_app. simpl.
    replace (length l + 1 - 1) with (length l) by lia.
    by rewrite take_app_length.
  - by apply Forall_take.
Qed.

(** ** The spec's algorithm on simple scripts *)

Lemma spec_forward_values (vs : list T) r :
  spec_forward never_cancels (Next <$> vs) r = (r ++ (Next <$> vs), Pending).
Proof.
  revert r. induction vs as [|v vs IH]; intros r; simpl.
  - by rewrite app_nil_r.
  - by rewrite IH, <- app_assoc.
Qed.

Lemma spec_forward_terminated (vs : list T) t script r :
  terminal t →
  spec_forward never_cancels ((Next <$> vs) ++ t :: script) r =
    (r ++ (Next <$> vs), Terminated).
Proof.
  intros Ht. revert r. induction vs as [|v vs IH]; intros r; simpl.
  - rewrite app_nil_r. by destruct t.
  - by rewrite IH, <- app_assoc.
Qed.

Lemma spec_run_values (vs : list T) r q i :
  spec_run never_cancels (mkObserved r q (S i) false) (Emit i <$> (Next <$> vs)) =
    mkObserved (r ++ (Next <$> vs)) q (S i) false.
Proof.
  revert r. induction vs as [|v vs IH]; intros r; simpl.
  - by rewrite app_nil_r.
  - unfold spec_step at 1. simpl. rewrite bool_decide_true by done.
    change (never_cancels (r ++ [Next v])) with false.
    etrans; [apply IH|]. by rewrite <- app_assoc.
Qed.

Lemma spec_run_app cancels a (evs1 evs2 : list (Event T)) :
  spec_run cancels a (evs1 ++ evs2) = spec_run cancels (spec_run cancels a evs1) evs2.
Proof. apply foldl_app. Qed.


Lemma spec_advance_immediately cancels p q r n :
  (∀ v, p (Next v) = false) → Forall (immediately p) q →
  spec_advance cancels q r n = mkObserved (r ++ [Complete]) [] (n + length q) true.
Proof.
  intros Hp Hq. revert n. induction Hq as [|e q (t & s & -> & Ht) _ IH]; intros n; simpl.
  - by rewrite Nat.add_0_r.
  - destruct t as [v| |]; [by rewrite Hp in Ht|..]; rewrite IH; f_equal; lia.
Qed.

(** ** Sources that terminate during [subscribe] *)

Lemma subscribeNext_from_terminated cancels u ns src t script rest st :
  terminal t → sound cancels u ns src st → in_phase Advancing st →
  remaining st = Input (mkObservable (t :: script)) :: rest →
  ∃ st', subscribeNext_from cancels (Input (mkObservable (t :: script)) :: rest) st =
           leave (subscribeNext_from cancels rest st') ∧
         sound cancels u ns src st' ∧ in_phase Advancing st' ∧
         remaining st' = rest ∧ received st' = received st ∧
         depth st' = S (depth st) ∧
         max_depth st' = Nat.max (max_depth st) (S (depth st)).
Proof.
  intros Ht Hs Hph Hq.
  assert (Hc : closed st = false) by apply Hph.
  set (o := mkObservable (t :: script)).
  rewrite (subscribeNext_from_input _ _ o) by done.
  set (K := subscribeNext_from cancels rest).
  destruct (newOperatorSubscriber_advancing cancels u ns src K (Input o) o rest (enter st))
    as (st2 & E2 & S2 & P2 & Q2 & R2 & D2 & M2);
    [by apply sound_enter|by apply (in_phase_enter Advancing)|done..|].
  cbv zeta. simpl in E2, P2, R2, D2, M2. rewrite E2. simpl.
  set (i := length (inners st)) in *.
  destruct (subscribed_lookup _ _ _ P2) as (l & o' & Hl & Hi & Hf & Hlk).
  destruct (unsubscribeInner_subscribed cancels u ns src K [] i st2 S2 P2)
    as (st1 & E1 & U1 & U2 & U3 & U4 & U5 & U6 & U7).
  simpl in E1.
  assert (E3 : subscribeSource cancels K o i st2 = st1).
  { unfold subscribeSource. simpl. unfold innerNotify at 2. rewrite Hlk. simpl.
    replace (match t with Next value => subscriberNext cancels K value st2
             | _ => unsubscribeInner K i st2 end) with st1 by (by destruct t).
    apply innerNotify_script_finalized, U2. }
  rewrite E3.
  rewrite subscriberAdd_during by (split; auto).
  rewrite innerAdd_finalized by (done || apply U2).
  exists st1. split_and!; first [done | apply U2 | congruence].
Qed.

(** A queue of sources that all terminate at once is drained by nested
    activations of [subscribeNext], one per source and one for the empty
    queue. *)
Lemma subscribeNext_from_chain cancels u ns src p q st :
  (∀ v, p (Next v) = false) → Forall (immediately p) q →
  sound cancels u ns src st → in_phase Advancing st → remaining st = q →
  let st' := subscribeNext_from cancels q st in
  received st' = received st ++ [Complete] ∧ depth st' = depth st ∧
  max_depth st' = Nat.max (max_depth st) (depth st + length q + 1).
Proof.
  intros Hp Hq. revert st.
  induction Hq as [|e q (t & s & -> & Ht) _ IH]; intros st Hs Hph Hrem.
  - assert (Hc : closed st = false) by apply Hph.
    cbv zeta. rewrite subscribeNext_from_nil by done.
    destruct (subscriberComplete_advancing cancels u ns src subscribeNext_closed (enter st))
      as (C1 & C2 & C3 & C4 & C5 & C6 & C7);
      [by apply sound_enter|by apply (in_phase_enter Advancing)|done|].
    simpl. rewrite C3, C6, C7. simpl. split_and!; try done. f_equal. lia.
  - destruct (subscribeNext_from_terminated cancels u ns src t s q st)
      as (st' & -> & S1 & S2 & S3 & S4 & S5 & S6); try done.
    { destruct t; [by rewrite Hp in Ht|done..]. }
    destruct (IH st' S1 S2 S3) as (I1 & I2 & I3).
    simpl. rewrite I1, I2, I3, S4, S5, S6. simpl. split_and!; try done. lia.
Qed.

(** ** One source, no fallback *)

Lemma single_source_run (vs : list T) t k :
  terminal t →
  let script := (Next <$> vs) ++ [t] in
  received (run never_cancels (onErrorResumeNext never_cancels [] (sync_part k script))
              (async_part 0 k script)) = (Next <$> vs) ++ [Complete].
Proof.
  intros Ht script.
  destruct (reachable_sound never_cancels [] (sync_part k script) (async_part 0 k script))
    as (_ & _ & Hobs).
  apply (f_equal o_received) in Hobs. simpl in Hobs. rewrite Hobs. clear Hobs.
  unfold spec_subscribe, sync_part, async_part, script. simpl.
  destruct (decide (k ≤ length vs)) as [Hk|Hk].
  - rewrite take_app_le, drop_app_le by (by rewrite length_fmap).
    rewrite <- fmap_take, <- fmap_drop, spec_forward_values. simpl.
    rewrite fmap_app, spec_run_app, spec_run_values. simpl.
    unfold spec_step. simpl.
    destruct t; simpl; [done|..]; by rewrite <- fmap_app, take_drop.
  - rewrite take_ge, drop_ge by (rewrite length_app, length_fmap; simpl; lia).
    by rewrite spec_forward_terminated.
Qed.

(** ** A failed conversion against a source that errors at once *)

Lemma spec_advance_shift cancels q r c :
  let a1 := spec_advance cancels q r c in
  let a2 := spec_advance cancels q r (S c) in
  o_received a1 = o_received a2 ∧ o_closed a1 = o_closed a2 ∧
  o_remaining a1 = o_remaining a2 ∧ o_subscribed a2 = S (o_subscribed a1) ∧
  (o_closed a1 = true ∨ c < o_subscribed a1).
Proof.
  revert r c. induction q as [|e q IH]; intros r c; simpl.
  - split_and!; auto.
  - destruct (innerFrom e) as [o|]; [|apply IH].
    destruct (spec_forward cancels (emits o) r) as [r' []]; simpl.
    + split_and!; auto; right; lia.
    + destruct (IH r' (S c)) as (I1 & I2 & I3 & I4 & I5).
      split_and!; auto; destruct I5; [by left|right; lia].
    + split_and!; auto.
Qed.

Lemma spec_advance_related cancels post err x r c :
  related post err (c + length (omap innerFrom x))
    (spec_advance cancels (x ++ Invalid :: post) r c)
    (spec_advance cancels (x ++ erroring err :: post) r c).
Proof.
  revert r c. induction x as [|e x IH]; intros r c.
  - simpl. destruct (spec_advance_shift cancels post r c) as (I1 & I2 & I3 & I4 & I5).
    split_and!; try done. right. split_and!; try done.
    destruct I5; [by left|right; lia].
  - assert (Hp : c + length (omap innerFrom (e :: x)) =
                 match innerFrom e with
                 | Some _ => S c + length (omap innerFrom x)
                 | None => c + length (omap innerFrom x)
                 end).
    { change (omap innerFrom (e :: x))
        with (match innerFrom e with
              | Some y => y :: omap innerFrom x
              | None => omap innerFrom x
              end).
      destruct (innerFrom e); cbn [length]; lia. }
    rewrite Hp. clear Hp. simpl.
    destruct (innerFrom e) as [o|]; simpl; [|apply IH].
    destruct (spec_forward cancels (emits o) r) as [r' []]; simpl.
    + split_and!; try done. left. exists x. by split_and!.
    + apply IH.
    + split_and!; try done. left. exists x. by split_and!.
Qed.

Lemma spec_step_related cancels post err p a1 a2 ev :
  related post err p a1 a2 →
  related post err p (spec_step cancels a1 ev) (spec_step cancels a2 (renumber p ev)).
Proof.
  intros Hrel. pose proof Hrel as (Hr & Hc & Hq).
  unfold spec_step. rewrite <- Hc.
  destruct (o_closed a1) eqn:Hcl; [done|]. rewrite <- Hr.
  destruct ev as [i n|]; simpl.
  - destruct Hq as [(x & Q1 & Q2 & Q3 & Q4)|(Q1 & Q2 & [Q3|Q3])]; [| congruence |].
    + rewrite Q3. case_bool_decide as Hi.
      * rewrite (bool_decide_true (i < p)) by lia. rewrite bool_decide_true by done.
        assert (Hadv : related post err p
                  (spec_advance cancels (o_remaining a1) (o_received a1) (o_subscribed a1))
                  (spec_advance cancels (o_remaining a2) (o_received a1) (o_subscribed a1))).
        { rewrite Q1, Q2, <- Q4. apply spec_advance_related. }
        destruct n; try done.
        split_and!; try done. left. exists x. by split_and!.
      * assert (Hno : ¬ S (if bool_decide (i < p) then i else S i) = o_subscribed a1)
          by (case_bool_decide; lia).
        by rewrite (bool_decide_false _ Hno).
    + rewrite Q2. case_bool_decide as Hi.
      * rewrite (bool_decide_false (i < p)) by lia.
        rewrite bool_decide_true by lia.
        assert (Hadv : related post err p
                  (spec_advance cancels (o_remaining a1) (o_received a1) (o_subscribed a1))
                  (spec_advance cancels (o_remaining a2) (o_received a1) (S (o_subscribed a1)))).
        { rewrite <- Q1.
          destruct (spec_advance_shift cancels (o_remaining a1) (o_received a1) (o_subscribed a1))
            as (I1 & I2 & I3 & I4 & I5).
          split_and!; try done. right. split_and!; try done.
          destruct I5; [by left|right; lia]. }
        destruct n; try done.
        split_and!; try done. right. split_and!; try done. right. done.
      * assert (Hno : ¬ S (if bool_decide (i < p) then i else S i) = S (o_subscribed a1))
          by (case_bool_decide; lia).
        by rewrite (bool_decide_false _ Hno).
  - split_and!; try done.
    destruct Hq as [(x & Q1 & Q2 & Q3 & Q4)|(Q1 & Q2 & Q3)].
    + left. exists x. by split_and!.
    + right. split_and!; try done. by left.
Qed.

Lemma spec_run_related cancels post err p evs a1 a2 :
  related post err p a1 a2 →
  related post err p (spec_run cancels a1 evs) (spec_run cancels a2 (renumber p <$> evs)).
Proof.
  revert a1 a2. induction evs as [|ev evs IH]; intros a1 a2 Hr; [done|].
  simpl. apply IH. by apply spec_step_related.
Qed.

(** A primary and [n] fallbacks that all complete during [subscribe]. *)
Lemma completing_chain cancels n :
  let st := onErrorResumeNext cancels (replicate n completing) completing in
  received st = [Complete] ∧ depth st = 0 ∧ max_depth st = n + 2.
Proof.
  destruct (initial_sound cancels (replicate n completing) completing) as [I1 I2].
  assert (Hq : Forall (immediately is_complete) (completing :: replicate n (@completing T))).
  { apply Forall_cons. split; [by eexists _, _|].
    apply Forall_replicate. by eexists _, _. }
  destruct (subscribeNext_from_chain cancels false _ _ is_complete _ _
              (λ _, eq_refl) Hq I1 I2 eq_refl) as (C1 & C2 & C3).
  cbv zeta. unfold onErrorResumeNext, subscribeNext.
  change (remaining (initial (replicate n completing) completing))
    with (completing :: replicate n (@completing T)).
  rewrite C1, C2, C3. simpl. rewrite length_replicate. split_and!; try done; lia.
Qed.

End Facts.

(** ** The claims *)

Section Claims.

Context {T : Type}.

Implicit Types (st : State T) (ns : list (ObservableInput T)) (src : ObservableInput T).
Implicit Types (cancels : list (Notification T) → bool) (evs : list (Event T)).


Lemma received_shape cancels u ns src st :
  sound cancels u ns src st →
  count is_error (received st) = 0 ∧
  count is_complete (received st) ≤ 1 ∧
  (Complete ∈ received st →
   closed st = true ∧ remaining st = [] ∧ last (received st) = Some Complete).
Proof.
  intros [_ _ [[vs Hv]|([vs Hv] & Hc & Hq)] _ _]; rewrite Hv.
  - rewrite !count_values by done.
    split_and!; [done|lia|]. by intros ?%complete_not_value.
  - rewrite !count_app, !count_values by done.
    split_and!; [done|done|]. intros _. by rewrite last_snoc.
Qed.

(** Forwarding a script delivers values only, and ends the source only on
    a terminal notification of the script. *)
Lemma spec_forward_received cancels script (r : list (Notification T)) :
  ∃ vs, (spec_forward cancels script r).1 = r ++ (Next <$> vs).
Proof.
  revert r. induction script as [|[v|err|] script IH]; intros r; simpl;
    try (exists []; by rewrite app_nil_r).
  destruct (cancels _); simpl.
  - by exists [v].
  - destruct (IH (r ++ [Next v])) as [vs ->]. exists (v :: vs).
    by rewrite <- app_assoc.
Qed.

Lemma spec_forward_terminated_inv cancels script (r : list (Notification T)) :
  (spec_forward cancels script r).2 = Terminated → script_terminates script = true.
Proof.
  revert r. induction script as [|[v|err|] script IH]; intros r; simpl; try done.
  destruct (cancels _); [done|apply IH].
Qed.

(** The advancement delivers [complete] only if every entry it goes
    through fails to convert or terminates during its [subscribe]. *)
Lemma spec_advance_complete cancels (q : list (ObservableInput T)) r c :
  Complete ∉ r → Complete ∈ o_received (spec_advance cancels q r c) →
  Forall (λ e, input_finishes e = true) q.
Proof.
  revert r c. induction q as [|e q IH]; intros r c Hr Hin; [done|].
  simpl in Hin. unfold input_finishes at 1.
  destruct (innerFrom e) as [o|] eqn:He.
  - destruct (spec_forward_received cancels (emits o) r) as [vs Hvs].
    pose proof (spec_forward_terminated_inv cancels (emits o) r) as Hterm.
    assert (Hr' : Complete ∉ (spec_forward cancels (emits o) r).1).
    { rewrite Hvs. intros [?|?%complete_not_value]%elem_of_app; done. }
    destruct (spec_forward cancels (emits o) r) as [r' []]; simpl in *; try done.
    apply Forall_cons. split; [by rewrite He; apply Hterm|by eapply IH].
  - apply Forall_cons. split; [by rewrite He|by eapply IH].
Qed.

(** C1 (as amended).  For every subscription, whatever the sources and the
    consumer do: the consumer never receives an [error]; it receives at
    most one [complete]; a [complete] is the last thing it receives and is
    delivered only once the queue is empty and every inner subscription has
    finalized: during the [subscribe] call only if every entry failed to
    convert or terminated during its own [subscribe]; later only in the step
    in which the one open inner subscriber is pushed its own [error] or
    [complete], by the activation of [subscribeNext] that this starts on a
    store in which every inner subscriber has finalized, and only if every
    entry still queued fails to convert or terminates during its own
    [subscribe].  The consumer does receive exactly one [complete] as soon
    as no inner subscription is open, unless it unsubscribed (from outside
    or on a value).  In particular, when every source errors at once the
    consumer receives exactly one [complete] and nothing else. *)
Theorem complete_once_and_never_error cancels ns src evs :
  let st := run cancels (onErrorResumeNext cancels ns src) evs in
  count is_error (received st) = 0 ∧
  count is_complete (received st) ≤ 1 ∧
  (Complete ∈ received st →
     remaining st = [] ∧ alive st = 0 ∧ last (received st) = Some Complete) ∧
  (Complete ∈ received (onErrorResumeNext cancels ns src) →
     Forall (λ e, input_finishes e = true) (src :: ns)) ∧
  (∀ ev, Complete ∉ received st → Complete ∈ received (step cancels st ev) →
     ∃ i n st1,
       ev = Emit i n ∧ terminal n ∧ S i = length (inners st) ∧
       step cancels st ev = subscribeNext cancels st1 ∧
       closed st1 = false ∧ Forall finalized (inners st1) ∧
       remaining st1 = remaining st ∧ received st1 = received st ∧
       Forall (λ e, input_finishes e = true) (remaining st)) ∧
  (alive st = 0 → has_unsubscribe evs = false →
     (∀ l, l `prefix_of` received st → cancels l = false) →
     count is_complete (received st) = 1) ∧
  (Forall (immediately is_error) (src :: ns) →
     received (onErrorResumeNext cancels ns src) = [Complete]).
Proof.
  destruct (reachable_sound cancels ns src evs) as (Hs & Hq & _). cbv zeta.
  set (st := run cancels (onErrorResumeNext cancels ns src) evs) in *.
  destruct (received_shape _ _ _ _ _ Hs) as (He & Hc & Hlast).
  pose proof (quiescent_alive _ Hq) as Ha.
  split_and!.
  - done.
  - done.
  - intros Hin. destruct (Hlast Hin) as (Hcl & Hrem & Hl).
    rewrite Hcl in Ha. done.
  - intros Hin.
    destruct (reachable_sound cancels ns src []) as (_ & _ & Hobs).
    apply (f_equal o_received) in Hobs.
    change (received (onErrorResumeNext cancels ns src) =
            o_received (spec_subscribe cancels ns src)) in Hobs.
    rewrite Hobs in Hin. unfold spec_subscribe in Hin.
    eapply spec_advance_complete; [|exact Hin]. apply not_elem_of_nil.
  - intros ev Hnot Hin.
    assert (Hobs : observe (step cancels st ev) = spec_step cancels (observe st) ev).
    { destruct ev as [i n|].
      - apply (step_emit_sound cancels _ ns src i n st Hs Hq).
      - apply (step_unsubscribe_sound cancels _ ns src st Hs Hq). }
    pose proof (f_equal o_received Hobs) as Hr.
    change (received (step cancels st ev) =
            o_received (spec_step cancels (observe st) ev)) in Hr.
    rewrite Hr in Hin. unfold spec_step in Hin. simpl in Hin.
    destruct (closed st) eqn:Hcl; [done|].
    destruct ev as [i n|]; [|done].
    case_bool_decide as Hi; [|done].
    assert (Hadv : terminal n ∧ Forall (λ e, input_finishes e = true) (remaining st)).
    { destruct n as [v|err|]; simpl in Hin.
      - apply elem_of_app in Hin as [?|Hin]; [done|].
        apply list_elem_of_singleton in Hin. done.
      - split; [done|]. by eapply spec_advance_complete.
      - split; [done|]. by eapply spec_advance_complete. }
    destruct Hadv as [Hn Hfin].
    destruct Hq as [[j Hj]|(Hd & _)]; [|congruence].
    rewrite (subscribed_length _ _ _ Hj) in Hi. simplify_eq.
    destruct (subscribed_lookup _ _ _ Hj) as (l & o & Hl & Hlen & Hf & Hlk).
    destruct (unsubscribeInner_subscribed cancels _ ns src (subscribeNext cancels)
                [SubscribeNext] j st Hs Hj) as (st1 & E1 & U1 & U2 & U3 & U4 & U5 & _).
    exists j, n, st1. split_and!; try done.
    + by rewrite (subscribed_length _ _ _ Hj).
    + simpl. unfold innerNotify. rewrite Hlk. simpl. by destruct n.
    + apply U2.
    + apply U2.
  - intros H0 Hu Hcan.
    destruct (closed st) eqn:Hcl; [|lia].
    destruct (sound_closed _ _ _ _ _ Hs Hcl) as [[vs Hv]|[(l & Hl & Hl')|Hu']].
    + rewrite Hv, count_app, count_values by done. done.
    + rewrite Hcan in Hl' by done. done.
    + congruence.
  - intros Himm.
    destruct (reachable_sound cancels ns src []) as (_ & _ & Hobs).
    apply (f_equal o_received) in Hobs.
    change (received (onErrorResumeNext cancels ns src) =
            o_received (spec_subscribe cancels ns src)) in Hobs.
    rewrite Hobs. unfold spec_subscribe.
    by rewrite (spec_advance_immediately cancels is_error).
Qed.

(** C2.  The queue built on line 86 is the source followed by the
    fallbacks in the order given, and at any time the queue is what is left
    of it after a front part [consumed] was shifted off: the inner
    subscriptions made so far are those of the entries of [consumed] that
    convert, one each, in the same order. *)
Theorem queue_consumed_front_to_back cancels ns src evs :
  remaining (initial ns src) = src :: ns ∧
  let st := run cancels (onErrorResumeNext cancels ns src) evs in
  ∃ consumed,
    consumed ++ remaining st = src :: ns ∧
    inner_source <$> inners st = omap innerFrom consumed.
Proof.
  split; [done|].
  destruct (reachable_sound cancels ns src evs) as (Hs & _ & _).
  apply Hs.
Qed.

(** Once [subscriber] is closed, whatever still runs leaves the queue, the
    inner subscribers created and what was delivered as they are. *)
Lemma frozen_refl st : closed st = true → frozen st st.
Proof. by intros Hc. Qed.












(** C6.  At no time, not even inside an advancement step, are two inner
    subscribers open: the highest number ever open at once is at most one,
    and between two events every inner subscriber but the newest has
    finalized. *)
Theorem at_most_one_inner_alive cancels ns src evs :
  let st := run cancels (onErrorResumeNext cancels ns src) evs in
  max_alive st ≤ 1 ∧ alive st ≤ 1 ∧
  Forall finalized (take (length (inners st) - 1) (inners st)).
Proof.
  destruct (reachable_sound cancels ns src evs) as (Hs & Hq & _). cbv zeta.
  split_and!.
  - apply Hs.
  - rewrite (quiescent_alive _ Hq). case_match; lia.
  - by apply quiescent_newest.
Qed.

(** C10.  The array of fallbacks captured by the operator is the same after
    any run, however it ended; a later subscription starts from the whole
    list again. *)
Theorem caller_array_never_mutated cancels ns src evs :
  let st := run cancels (onErrorResumeNext cancels ns src) evs in
  nextSources st = ns ∧
  ∀ src', remaining (initial (nextSources st) src') = src' :: ns.
Proof.
  destruct (reachable_sound cancels ns src evs) as (Hs & _ & _). cbv zeta.
  destruct Hs as [Hf _ _ _ _]. split; [done|]. intros src'. simpl. by rewrite Hf.
Qed.

(** C3.  The primary pushes [a], [b] and completes, the first fallback
    pushes [c] and errors, the second pushes [d] and completes; each of the
    three pushes any part of its script during [subscribe] and the rest
    later.  The consumer receives [a], [b], [c], [d], [complete], in this
    order, and no [error]. *)
Theorem three_sources_in_order (a b c d err : T) (k0 k1 k2 : nat) :
  let p := [Next a; Next b; Complete] in
  let f1 := [Next c; Error err] in
  let f2 := [Next d; Complete] in
  let st :=
    run never_cancels
      (onErrorResumeNext never_cancels [sync_part k1 f1; sync_part k2 f2] (sync_part k0 p))
      (async_part 0 k0 p ++ async_part 1 k1 f1 ++ async_part 2 k2 f2) in
  received st = [Next a; Next b; Next c; Next d; Complete] ∧
  count is_error (received st) = 0.
Proof.
  destruct k0 as [|[|[|[|k0]]]], k1 as [|[|[|k1]]], k2 as [|[|[|k2]]];
    split; reflexivity.
Qed.

Lemma spec_advance_invalid cancels n r c :
  spec_advance cancels (replicate n (@Invalid T)) r c =
    mkObserved (r ++ [Complete]) [] c true.
Proof. induction n as [|n IH]; [done|]. simpl. apply IH. Qed.

(** C4.  An entry whose conversion fails is dropped and the next entry is
    tried in the same activation chain; when nothing but such entries is
    left the consumer gets [complete]; and what the consumer sees of a whole
    run is the same as with a source that errors at once in place of the
    entry (the inner subscribers created after it being numbered one
    higher). *)
Theorem conversion_failure_is_immediate_error cancels :
  (∀ rest st, closed st = false → remaining st = Invalid :: rest →
     subscribeNext cancels st =
       leave (subscribeNext cancels (set_remaining rest (enter st)))) ∧
  (∀ n, received (onErrorResumeNext cancels (replicate n Invalid) Invalid) = [Complete]) ∧
  (∀ pre post src err evs,
     let p := length (omap innerFrom (src :: pre)) in
     visible (run cancels (onErrorResumeNext cancels (pre ++ Invalid :: post) src) evs) =
     visible (run cancels (onErrorResumeNext cancels (pre ++ erroring err :: post) src)
                (renumber p <$> evs))).
Proof.
  split_and!.
  - intros rest st Hc Hq. unfold subscribeNext. rewrite Hq.
    by rewrite subscribeNext_from_invalid.
  - intros n.
    destruct (reachable_sound cancels (replicate n Invalid) Invalid []) as (_ & _ & Hobs).
    apply (f_equal o_received) in Hobs.
    change (received (onErrorResumeNext cancels (replicate n Invalid) Invalid) =
            o_received (spec_subscribe cancels (replicate n Invalid) Invalid)) in Hobs.
    rewrite Hobs. unfold spec_subscribe.
    by rewrite (spec_advance_invalid cancels (S n)).
  - intros pre post src err evs p.
    destruct (reachable_sound cancels (pre ++ Invalid :: post) src evs) as (_ & _ & H1).
    destruct (reachable_sound cancels (pre ++ erroring err :: post) src (renumber p <$> evs))
      as (_ & _ & H2).
    pose proof (spec_advance_related cancels post err (src :: pre) [] 0) as Hrel.
    apply (spec_run_related cancels post err p evs) in Hrel.
    unfold spec_subscribe in H1, H2.
    rewrite <- app_comm_cons, <- H1 in Hrel. rewrite <- app_comm_cons, <- H2 in Hrel.
    destruct Hrel as (Hr & Hc & _). unfold visible. simpl in Hr, Hc. congruence.
Qed.

(** C7.  Without fallbacks, a source that pushes [vs] and then errors (any
    part of it during [subscribe]) makes the consumer receive [vs] followed
    by [complete]: the error is turned into a completion. *)
Theorem error_becomes_complete_without_fallbacks (vs : list T) (err : T) (k : nat) :
  let script := (Next <$> vs) ++ [Error err] in
  received (run never_cancels (onErrorResumeNext never_cancels [] (sync_part k script))
              (async_part 0 k script)) = (Next <$> vs) ++ [Complete].
Proof. by apply single_source_run. Qed.

(** C8 (as amended).  A chain of 1000 fallbacks that complete during
    [subscribe] (after a primary that does the same) is drained: every one
    of the 1001 sources is subscribed, none is left open or queued, and the
    consumer receives exactly [complete].  The advancement is a recursion:
    each source is subscribed from inside the activation of [subscribeNext]
    that subscribed the one before it, so 1002 activations are in progress
    at the deepest point. *)
Theorem synchronous_chain_drains_by_recursion cancels :
  let st := onErrorResumeNext cancels (replicate 1000 completing) completing in
  received st = [Complete] ∧ closed st = true ∧ remaining st = [] ∧
  length (inners st) = 1001 ∧ alive st = 0 ∧ max_depth st = 1002.
Proof.
  cbv zeta.
  destruct (completing_chain cancels 1000) as (Hr & _ & Hm).
  destruct (reachable_sound cancels (replicate 1000 completing) completing [])
    as (Hs & Hq & _).
  cbv zeta in Hr, Hm, Hs, Hq.
  change (run cancels ?s []) with s in Hs, Hq.
  destruct (received_shape _ _ _ _ _ Hs) as (_ & _ & Hc).
  destruct Hc as (Hc & Hrem & _); [rewrite Hr; apply list_elem_of_here|].
  split; [done|]. split; [done|]. split; [done|].
  split; [|split; [by rewrite (quiescent_alive _ Hq), Hc|by rewrite Hm]].
  destruct Hs as [_ (consumed & Hcons & Hin) _ _ _].
  rewrite Hrem, app_nil_r in Hcons. subst consumed.
  rewrite <- (length_fmap inner_source), Hin.
  change 1001 with (S 1000). generalize 1000. intros n.
  change (omap innerFrom (completing :: replicate n completing))
    with (mkObservable [@Complete T] :: omap innerFrom (replicate n completing)).
  cbn [length]. f_equal.
  induction n as [|n IH]; [done|].
  change (omap innerFrom (replicate (S n) completing))
    with (mkObservable [@Complete T] :: omap innerFrom (replicate n completing)).
  cbn [length]. by rewrite IH.
Qed.

(** C9.  Without fallbacks, a source that pushes [x], [y] and completes
    (any part of it during [subscribe]) makes the consumer receive exactly
    the script of the source. *)
Theorem identity_on_completing_source (x y : T) (k : nat) :
  let script := [Next x; Next y; Complete] in
  received (run never_cancels (onErrorResumeNext never_cancels [] (sync_part k script))
              (async_part 0 k script)) = script.
Proof. by apply (single_source_run [x; y] Complete). Qed.

End Claims.

(** ** Concrete runs *)

(** C1, a run on which the claim as first stated fails: a primary that
    pushes 1 and 2 and never terminates, and the same primary with a consumer
    that unsubscribes before the primary completes.  In both the consumer
    has received no [complete]. *)
Lemma complete_not_always_delivered :
  (received (run never_cancels
               (onErrorResumeNext never_cancels [erroring 7] (Input (mkObservable [Next 1])))
               [Emit 0 (Next 2)]) = [Next 1; Next 2] ∧
   count is_complete
     (received (run never_cancels
                  (onErrorResumeNext never_cancels [erroring 7] (Input (mkObservable [Next 1])))
                  [Emit 0 (Next 2)])) = 0) ∧
  (received (run never_cancels
               (onErrorResumeNext never_cancels [erroring 7] (Input (mkObservable [Next 1])))
               [Unsubscribe; Emit 0 Complete]) = [Next 1] ∧
   count is_complete
     (received (run never_cancels
                  (onErrorResumeNext never_cancels [erroring 7] (Input (mkObservable [Next 1])))
                  [Unsubscribe; Emit 0 Complete])) = 0).
Proof. repeat split. Qed.

(** C1, the amended statement on two sources that error at once, and on a
    source that has pushed a value and completes later. *)
Lemma complete_once_and_never_error_witness :
  ((remaining (run never_cancels (onErrorResumeNext never_cancels [erroring 1] (erroring 0)) []) = [] ∧
    alive (run never_cancels (onErrorResumeNext never_cancels [erroring 1] (erroring 0)) []) = 0 ∧
    last (received (run never_cancels (onErrorResumeNext never_cancels [erroring 1] (erroring 0)) []))
      = Some Complete) ∧
   Forall (λ e, input_finishes e = true) [erroring 0; erroring 1] ∧
   count is_complete
     (received (run never_cancels (onErrorResumeNext never_cancels [erroring 1] (erroring 0)) [])) = 1 ∧
   received (onErrorResumeNext never_cancels [erroring 1] (erroring 0)) = [Complete]) ∧
  ∃ (i : nat) (n : Notification nat) (st1 : State nat),
    Emit 0 Complete = Emit i n ∧ terminal n ∧
    S i = length (inners (run never_cancels
                            (onErrorResumeNext never_cancels [] (Input (mkObservable [Next 1])))
                            [])) ∧
    step never_cancels
      (run never_cancels (onErrorResumeNext never_cancels [] (Input (mkObservable [Next 1]))) [])
      (Emit 0 Complete) = subscribeNext never_cancels st1 ∧
    closed st1 = false ∧ Forall finalized (inners st1) ∧
    remaining st1 =
      remaining (run never_cancels
                   (onErrorResumeNext never_cancels [] (Input (mkObservable [Next 1]))) []) ∧
    received st1 =
      received (run never_cancels
                  (onErrorResumeNext never_cancels [] (Input (mkObservable [Next 1]))) []) ∧
    Forall (λ e, input_finishes e = true)
      (remaining (run never_cancels
                    (onErrorResumeNext never_cancels [] (Input (mkObservable [Next 1]))) [])).
Proof.
  split.
  - destruct (complete_once_and_never_error never_cancels [erroring 1] (erroring 0) [])
      as (_ & _ & H3 & H4 & _ & H6 & H7).
    split; [|split; [|split]].
    + apply H3. apply list_elem_of_here.
    + apply H4. apply list_elem_of_here.
    + apply H6; [reflexivity|reflexivity|reflexivity].
    + apply H7. apply Forall_cons. split; [by exists (Error 0), []|].
      apply Forall_cons. split; [by exists (Error 1), []|]. apply Forall_nil_2.
  - destruct (complete_once_and_never_error never_cancels []
                (Input (mkObservable [Next 1])) []) as (_ & _ & _ & _ & H5 & _).
    apply (H5 (Emit 0 Complete)).
    + intros Hin. apply list_elem_of_singleton in Hin. discriminate.
    + apply list_elem_of_lookup_2 with 1. reflexivity.
Defined.

(** C4, on a queue whose front entry does not convert. *)
Lemma conversion_failure_is_immediate_error_witness :
  subscribeNext never_cancels (initial [completing] (@Invalid nat)) =
    leave (subscribeNext never_cancels
             (set_remaining [completing] (enter (initial [completing] Invalid)))).
Proof.
  apply (proj1 (conversion_failure_is_immediate_error never_cancels)); reflexivity.
Defined.


(** C8, against the claim as first stated: on the chain of 1000 fallbacks
    1002 activations of [subscribeNext] are nested, and no bound holds for
    all chain lengths: the advancement is a recursion, not a loop. *)
Lemma synchronous_chain_is_recursive :
  max_depth (onErrorResumeNext never_cancels (replicate 1000 completing) (@completing nat)) = 1002 ∧
  ¬ ∃ d, ∀ n,
      max_depth (onErrorResumeNext never_cancels (replicate n completing) (@completing nat)) ≤ d.
Proof.
  split; [by vm_compute|].
  intros [d Hd]. specialize (Hd d).
  destruct (completing_chain (@never_cancels nat) d) as (_ & _ & Hm).
  rewrite Hm in Hd. lia.
Qed.

(** ** Further properties of the operator *)

Section Further.

Context {T : Type}.

Implicit Types (st : State T) (ns q : list (ObservableInput T)) (src e : ObservableInput T).
Implicit Types (cancels : list (Notification T) → bool) (evs : list (Event T)).
Implicit Types (r : list (Notification T)) (a : @Observed T).
Implicit Types (K : State T → State T) (o : Observable T).

(** *** The kind of termination does not matter *)

Lemma spec_forward_canon cancels script r :
  spec_forward cancels (canon script) r = spec_forward cancels script r.
Proof.
  revert r. induction script as [|[v|err|] script IH]; intros r; simpl; try done.
  destruct (cancels _); [done|apply IH].
Qed.

Lemma spec_advance_canon cancels q r c :
  spec_advance cancels (canon_input <$> q) r c = canon_observed (spec_advance cancels q r c).
Proof.
  revert r c. induction q as [|[|o] q IH]; intros r c; [done|apply IH|].
  change (spec_advance cancels (canon_input <$> Input o :: q) r c)
    with (match spec_forward cancels (canon (emits o)) r with
          | (r', Pending) => mkObserved r' (canon_input <$> q) (S c) false
          | (r', Terminated) => spec_advance cancels (canon_input <$> q) r' (S c)
          | (r', Cancelled) => mkObserved r' (canon_input <$> q) (S c) true
          end).
  rewrite spec_forward_canon. simpl.
  destruct (spec_forward cancels (emits o) r) as [r' []]; try done; apply IH.
Qed.

Lemma spec_step_canon cancels a ev :
  spec_step cancels (canon_observed a) (canon_event ev) =
    canon_observed (spec_step cancels a ev).
Proof.
  unfold spec_step. simpl. destruct (o_closed a); [done|].
  destruct ev as [i [v|err|]|]; simpl; try done;
    case_bool_decide; try done; apply spec_advance_canon.
Qed.

Lemma spec_run_canon cancels a evs :
  spec_run cancels (canon_observed a) (canon_event <$> evs) =
    canon_observed (spec_run cancels a evs).
Proof.
  revert a. induction evs as [|ev evs IH]; intros a; [done|].
  simpl. rewrite spec_step_canon. apply IH.
Qed.

(** *** Once the consumer has unsubscribed on a value *)

Lemma prefix_snoc_cases {A} (l r : list A) x :
  l `prefix_of` r ++ [x] → l `prefix_of` r ∨ l = r ++ [x].
Proof.
  intros [k Hk]. destruct k as [|y k _] using rev_ind.
  - right. by rewrite app_nil_r in Hk.
  - left. rewrite app_assoc in Hk. apply app_inj_tail in Hk as [-> _].
    by exists k.
Qed.

Lemma quiet_nil cancels : quiet cancels [].
Proof. intros l Hl Hp. by apply prefix_nil_inv in Hp. Qed.

Lemma quiet_snoc cancels r x :
  quiet cancels r → cancels (r ++ [x]) = false → quiet cancels (r ++ [x]).
Proof.
  intros Hq Hx l Hl [Hp| ->]%prefix_snoc_cases; [by apply Hq|done].
Qed.

Lemma spec_forward_heeded cancels script r :
  quiet cancels r →
  match (spec_forward cancels script r).2 with
  | Cancelled => ∃ r0 x, (spec_forward cancels script r).1 = r0 ++ [x] ∧ quiet cancels r0
  | _ => quiet cancels (spec_forward cancels script r).1
  end.
Proof.
  revert r. induction script as [|[v|err|] script IH]; intros r Hq; simpl; try done.
  destruct (cancels (r ++ [Next v])) eqn:Hc; simpl.
  - by exists r, (Next v).
  - apply IH. by apply quiet_snoc.
Qed.

Lemma spec_advance_heeded cancels q r c :
  quiet cancels r → heeded cancels (spec_advance cancels q r c).
Proof.
  revert r c. induction q as [|e q IH]; intros r c Hq; simpl.
  - exists r. split; [done|]. right. split; [done|]. by exists Complete.
  - destruct (innerFrom e) as [o|]; [|by apply IH].
    pose proof (spec_forward_heeded cancels (emits o) r Hq) as Hf.
    destruct (spec_forward cancels (emits o) r) as [r' []]; simpl in *.
    + exists r'. split; [done|by left].
    + by apply IH.
    + destruct Hf as (r0 & x & -> & Hq0). exists r0. split; [done|].
      right. split; [done|]. by exists x.
Qed.

Lemma spec_step_heeded cancels a ev :
  heeded cancels a → heeded cancels (spec_step cancels a ev).
Proof.
  intros Ha. unfold spec_step. destruct (o_closed a) eqn:Hc; [done|].
  destruct Ha as (r0 & Hq & [Hr|(Hc' & _)]); [|congruence].
  destruct ev as [i n|]; simpl.
  - case_bool_decide; [|exists r0; split; [done|by left]].
    destruct n as [v|err|]; try (rewrite Hr; by apply spec_advance_heeded).
    rewrite Hr. destruct (cancels (r0 ++ [Next v])) eqn:Hv.
    + exists r0. split; [done|]. right. split; [done|]. by exists (Next v).
    + exists (r0 ++ [Next v]). split; [by apply quiet_snoc|by left].
  - exists r0. split; [done|by left].
Qed.

Lemma spec_run_heeded cancels a evs :
  heeded cancels a → heeded cancels (spec_run cancels a evs).
Proof.
  revert a. induction evs as [|ev evs IH]; intros a Ha; [done|].
  simpl. apply IH. by apply spec_step_heeded.
Qed.

Lemma received_heeded cancels ns src evs l :
  let st := run cancels (onErrorResumeNext cancels ns src) evs in
  l ≠ [] → l `prefix_of` received st → cancels l = true →
  received st = l ∧ closed st = true.
Proof.
  intros st Hl Hp Hc.
  destruct (reachable_sound cancels ns src evs) as (_ & _ & Hobs). fold st in Hobs.
  assert (Hh : heeded cancels (observe st)).
  { rewrite Hobs. apply spec_run_heeded, spec_advance_heeded, quiet_nil. }
  destruct Hh as (r0 & Hq & [Hr|(Hcl & x & Hr)]); simpl in *.
  - rewrite Hr in Hp. rewrite (Hq l Hl Hp) in Hc. done.
  - rewrite Hr in Hp. apply prefix_snoc_cases in Hp as [Hp| ->].
    + rewrite (Hq l Hl Hp) in Hc. done.
    + done.
Qed.

(** *** Sources that terminate during [subscribe], one after the other *)

Lemma spec_forward_never script r :
  spec_forward never_cancels script r =
    (r ++ (Next <$> script_values script),
     if script_terminates script then Terminated else Pending).
Proof.
  revert r. induction script as [|[v|err|] script IH]; intros r; simpl;
    try (by rewrite app_nil_r).
  by rewrite IH, <- app_assoc.
Qed.

Lemma spec_advance_finishing q r c :
  Forall (λ e, input_finishes e = true) q →
  spec_advance never_cancels q r c =
    mkObserved (r ++ (Next <$> flat_map input_values q) ++ [Complete]) []
      (c + length (omap innerFrom q)) true.
Proof.
  intros Hq. revert r c. induction Hq as [|e q He _ IH]; intros r c.
  - simpl. f_equal. lia.
  - unfold input_finishes in He.
    change (flat_map input_values (e :: q)) with (input_values e ++ flat_map input_values q).
    change (omap innerFrom (e :: q))
      with (match innerFrom e with
            | Some y => y :: omap innerFrom q
            | None => omap innerFrom q
            end).
    unfold input_values. simpl spec_advance.
    destruct (innerFrom e) as [o|].
    + rewrite spec_forward_never, He, IH. rewrite fmap_app, <- !app_assoc.
      f_equal. cbn [length]. lia.
    + by rewrite IH.
Qed.

Lemma spec_advance_pending pre e post r c :
  Forall (λ e, input_finishes e = true) pre → input_finishes e = false →
  spec_advance never_cancels (pre ++ e :: post) r c =
    mkObserved (r ++ (Next <$> flat_map input_values (pre ++ [e]))) post
      (c + length (omap innerFrom pre) + 1) false.
Proof.
  intros Hpre He. revert r c. induction Hpre as [|e' pre He' _ IH]; intros r c.
  - unfold input_finishes in He. simpl. unfold input_values.
    destruct (innerFrom e) as [o|]; [|done].
    rewrite spec_forward_never, He. rewrite app_nil_r. f_equal. lia.
  - unfold input_finishes in He'.
    change (flat_map input_values ((e' :: pre) ++ [e]))
      with (input_values e' ++ flat_map input_values (pre ++ [e])).
    change (omap innerFrom (e' :: pre))
      with (match innerFrom e' with
            | Some y => y :: omap innerFrom pre
            | None => omap innerFrom pre
            end).
    unfold input_values at 1. simpl spec_advance.
    destruct (innerFrom e') as [o|].
    + rewrite spec_forward_never, He', IH. rewrite fmap_app, <- !app_assoc.
      f_equal. cbn [length]. lia.
    + by rewrite IH.
Qed.

(** *** What was delivered stays delivered, what was shifted stays shifted *)

Lemma spec_forward_extends cancels script r :
  r `prefix_of` (spec_forward cancels script r).1.
Proof.
  revert r. induction script as [|[v|err|] script IH]; intros r; simpl; try done.
  destruct (cancels _); simpl.
  - by apply prefix_app_r.
  - etrans; [|apply IH]. by apply prefix_app_r.
Qed.

Lemma spec_advance_mono cancels q r c :
  r `prefix_of` o_received (spec_advance cancels q r c) ∧
  o_remaining (spec_advance cancels q r c) `suffix_of` q ∧
  c ≤ o_subscribed (spec_advance cancels q r c).
Proof.
  revert r c. induction q as [|e q IH]; intros r c; simpl.
  - split_and!; [by apply prefix_app_r|done|done].
  - destruct (innerFrom e) as [o|].
    + pose proof (spec_forward_extends cancels (emits o) r) as Hf.
      destruct (spec_forward cancels (emits o) r) as [r' []]; simpl in *.
      * split_and!; [done|by apply suffix_cons_r|lia].
      * destruct (IH r' (S c)) as (I1 & I2 & I3).
        split_and!; [by etrans|by apply suffix_cons_r|lia].
      * split_and!; [done|by apply suffix_cons_r|lia].
    + destruct (IH r c) as (I1 & I2 & I3).
      split_and!; [done|by apply suffix_cons_r|done].
Qed.

Lemma spec_step_mono cancels a ev :
  o_received a `prefix_of` o_received (spec_step cancels a ev) ∧
  o_remaining (spec_step cancels a ev) `suffix_of` o_remaining a ∧
  o_subscribed a ≤ o_subscribed (spec_step cancels a ev) ∧
  (o_closed a = true → spec_step cancels a ev = a).
Proof.
  unfold spec_step. destruct (o_closed a); [done|].
  destruct ev as [i n|]; simpl; [|done].
  case_bool_decide; [|done].
  destruct n as [v|err|]; simpl.
  - split_and!; [by apply prefix_app_r|done..].
  - destruct (spec_advance_mono cancels (o_remaining a) (o_received a) (o_subscribed a))
      as (M1 & M2 & M3). done.
  - destruct (spec_advance_mono cancels (o_remaining a) (o_received a) (o_subscribed a))
      as (M1 & M2 & M3). done.
Qed.

Lemma spec_run_mono cancels a evs :
  o_received a `prefix_of` o_received (spec_run cancels a evs) ∧
  o_remaining (spec_run cancels a evs) `suffix_of` o_remaining a ∧
  o_subscribed a ≤ o_subscribed (spec_run cancels a evs).
Proof.
  revert a. induction evs as [|ev evs IH]; intros a; simpl; [done|].
  destruct (spec_step_mono cancels a ev) as (S1 & S2 & S3 & _).
  destruct (IH (spec_step cancels a ev)) as (I1 & I2 & I3).
  split_and!; [by etrans|by etrans|lia].
Qed.

(** *** Nested activations of [subscribeNext] *)

Lemma metered_id B : metered B (λ s : State T, s).
Proof. intros s. split_and!; [done|done|lia]. Qed.

Lemma metered_comp B (f g : State T → State T) :
  metered B f → metered B g → metered B (λ s, g (f s)).
Proof.
  intros Hf Hg s. destruct (Hf s) as (F1 & F2 & F3). destruct (Hg (f s)) as (G1 & G2 & G3).
  split_and!; lia.
Qed.

Lemma metered_foldl {A} B (f : A → State T → State T) (l : list A) :
  (∀ x, metered B (f x)) → metered B (λ s, foldl (λ s' x, f x s') s l).
Proof.
  intros Hf. induction l as [|x l IH]; simpl; [apply metered_id|].
  apply (metered_comp B (f x) _ (Hf x) IH).
Qed.

Lemma metered_closed : metered 1 (@subscribeNext_closed T).
Proof. intros s. simpl. split_and!; lia. Qed.

Lemma metered_mono B B' (f : State T → State T) : B ≤ B' → metered B f → metered B' f.
Proof. intros HB Hf s. destruct (Hf s) as (F1 & F2 & F3). split_and!; lia. Qed.

Lemma metered_unsubscribeInner B K i : metered B K → metered B (unsubscribeInner K i).
Proof.
  intros HK s. unfold unsubscribeInner.
  destruct (inners s !! i) as [x|]; [|apply (metered_id B s)].
  destruct (inner_closed x); [apply (metered_id B s)|].
  set (s1 := set_teardowns _ _).
  apply (metered_foldl B (execTeardown K) (inner_teardowns x)) with (s := s1).
  by intros [].
Qed.

Lemma metered_unsubscribe B K : metered B K → metered B (unsubscribe K).
Proof.
  intros HK s. unfold unsubscribe. destruct (closed s); [apply (metered_id B s)|].
  apply (metered_foldl B (unsubscribeInner K) (teardowns s))
    with (s := set_teardowns [] (set_closed true s)).
  intros i. by apply metered_unsubscribeInner.
Qed.

Lemma metered_subscriberNext cancels B K v :
  metered B K → metered B (subscriberNext cancels K v).
Proof.
  intros HK s. unfold subscriberNext. destruct (closed s); [apply (metered_id B s)|].
  destruct (cancels _); [|apply (metered_id B s)].
  apply (metered_unsubscribe B K HK (set_received (received s ++ [Next v]) s)).
Qed.

Lemma metered_innerNotify cancels B K i n :
  metered B K → metered B (innerNotify cancels K i n).
Proof.
  intros HK s. unfold innerNotify.
  destruct (inners s !! i) as [x|]; [|apply (metered_id B s)].
  destruct (inner_closed x); [apply (metered_id B s)|].
  destruct n; [by apply metered_subscriberNext|by apply metered_unsubscribeInner..].
Qed.

Lemma metered_subscribeSource cancels B K o i :
  metered B K → metered B (subscribeSource cancels K o i).
Proof.
  intros HK. unfold subscribeSource.
  apply (metered_foldl B (innerNotify cancels K i)).
  intros n. by apply metered_innerNotify.
Qed.

Lemma subscribed_unarmed i st : subscribed [] i st → unarmed i st.
Proof.
  intros (l & o & _ & _ & _ & Hlk)%subscribed_lookup x Hx _.
  rewrite Hlk in Hx. by simplify_eq.
Qed.

Lemma sound_skip cancels u ns src e rest st :
  sound cancels u ns src st → in_phase Advancing st →
  remaining st = e :: rest → innerFrom e = None →
  sound cancels u ns src (set_remaining rest (enter st)).
Proof.
  intros [H1 H2 H3 H4 H5] (Hc & _) Hq He. split; simpl; try done.
  - destruct H2 as (consumed & H2 & H2'). exists (consumed ++ [e]). split.
    + by rewrite <- H2, Hq, <- app_assoc.
    + rewrite omap_app. simpl. rewrite He. simpl. by rewrite app_nil_r.
  - destruct H3 as [H3|(_ & H3 & _)]; [by left|congruence].
Qed.

(** An activation that finds [subscriber] open and no inner subscriber open
    returns, and nests at most one activation per queue entry and one
    more. *)
Lemma subscribeNext_from_depth cancels u ns src q st :
  sound cancels u ns src st → in_phase Advancing st → remaining st = q →
  let st' := subscribeNext_from cancels q st in
  depth st' = depth st ∧ max_depth st ≤ max_depth st' ∧
  max_depth st' ≤ Nat.max (max_depth st) (depth st + length q + 1).
Proof.
  revert st. induction q as [|e rest IH]; intros st Hs Hph Hq.
  - assert (Hc : closed st = false) by apply Hph.
    cbv zeta. rewrite subscribeNext_from_nil by done.
    destruct (subscriberComplete_advancing cancels u ns src subscribeNext_closed (enter st))
      as (_ & _ & _ & _ & _ & C6 & C7);
      [by apply sound_enter|by apply (in_phase_enter Advancing)|done|].
    simpl. rewrite C6, C7. simpl. split_and!; lia.
  - assert (Hc : closed st = false) by apply Hph.
    cbv zeta. destruct (innerFrom e) as [o|] eqn:He.
    + rewrite (subscribeNext_from_input _ _ o) by done.
      set (K := subscribeNext_from cancels rest).
      assert (HK : guarded K) by apply guarded_from.
      destruct (newOperatorSubscriber_advancing cancels u ns src K e o rest (enter st))
        as (st2 & E2 & S2 & P2 & Q2 & R2 & D2 & M2);
        [by apply sound_enter|by apply (in_phase_enter Advancing)|done..|].
      cbv zeta. simpl in E2, P2, R2, D2, M2. rewrite E2. simpl.
      set (i := length (inners st)) in *.
      destruct (subscribeSource_forward cancels u ns src K o i st2 HK S2 P2)
        as (S3 & Q3 & L3 & _ & P3).
      destruct (subscribeSource_unarmed cancels K o i st2 HK (subscribed_unarmed _ _ P2))
        as (E3 & _ & _).
      destruct (metered_subscribeSource cancels 1 subscribeNext_closed o i metered_closed st2)
        as (F1 & F2 & F3).
      rewrite <- E3 in F1, F2, F3.
      set (st3 := subscribeSource cancels K o i st2) in *.
      destruct ((spec_forward cancels (emits o) (received st2)).2).
      * rewrite subscriberAdd_during by (split; auto).
        destruct (subscribed_lookup _ _ _ P3) as (l & o' & Hl & Hi & Hf & Hlk).
        unfold innerAdd. rewrite Hlk. simpl. split_and!; lia.
      * rewrite subscriberAdd_during by (split; auto).
        rewrite innerAdd_finalized by (done || apply P3).
        destruct (IH st3 S3 P3) as (I1 & I2 & I3); [congruence|].
        fold K in I1, I2, I3. simpl. rewrite I1. split_and!; lia.
      * rewrite subscriberAdd_during by (split; auto).
        rewrite innerAdd_finalized by (done || apply P3).
        rewrite HK by apply P3. simpl. split_and!; lia.
    + rewrite subscribeNext_from_invalid by done.
      destruct (IH (set_remaining rest (enter st))) as (I1 & I2 & I3);
        [by eapply sound_skip|done..|].
      simpl in *. rewrite I1. split_and!; lia.
Qed.

Lemma subscriberNext_guarded cancels K v st :
  guarded K → subscriberNext cancels K v st = subscriberNext cancels subscribeNext_closed v st.
Proof.
  intros HK. unfold subscriberNext. destruct (closed st); [done|].
  destruct (cancels _); [|done]. apply (unsubscribe_guarded K 0 _ HK).
Qed.

Lemma remaining_bounded cancels u ns src st :
  sound cancels u ns src st → length (remaining st) ≤ length ns + 1.
Proof.
  intros [_ (consumed & Hq & _) _ _ _].
  apply (f_equal length) in Hq. rewrite length_app in Hq. simpl in Hq. lia.
Qed.

Lemma step_depth cancels u ns src ev st :
  sound cancels u ns src st → quiescent st → depth st = 0 →
  let st' := step cancels st ev in
  depth st' = 0 ∧ max_depth st ≤ max_depth st' ∧
  max_depth st' ≤ Nat.max (max_depth st) (length ns + 2).
Proof.
  intros Hs Hq Hd.
  pose proof (remaining_bounded _ _ _ _ _ Hs) as Hlen.
  assert (Hun : let st' := unsubscribe (subscribeNext cancels) st in
                depth st' = 0 ∧ max_depth st ≤ max_depth st' ∧
                max_depth st' ≤ Nat.max (max_depth st) (length ns + 2)).
  { destruct (unsubscribe_guarded (subscribeNext cancels) 0 st (guarded_subscribeNext cancels))
      as (-> & _).
    destruct (metered_unsubscribe 1 subscribeNext_closed metered_closed st) as (U1 & U2 & U3).
    simpl. split_and!; lia. }
  destruct ev as [i n|]; [|exact Hun].
  simpl. destruct Hq as [[j Hj]|Hdone].
  - destruct (decide (i = j)) as [->|Hne].
    + destruct (subscribed_lookup _ _ _ Hj) as (l & o & Hl & Hi & Hf & Hlk).
      unfold innerNotify. rewrite Hlk. simpl.
      assert (Hterm : let st' := unsubscribeInner (subscribeNext cancels) j st in
                depth st' = 0 ∧ max_depth st ≤ max_depth st' ∧
                max_depth st' ≤ Nat.max (max_depth st) (length ns + 2)).
      { destruct (unsubscribeInner_subscribed cancels u ns src (subscribeNext cancels)
                    [SubscribeNext] j st) as (st1 & -> & U1 & U2 & U3 & U4 & U5 & U6 & U7);
          try done.
        simpl.
        destruct (subscribeNext_from_depth cancels u ns src (remaining st1) st1 U1 U2 eq_refl)
          as (D1 & D2 & D3).
        unfold subscribeNext. rewrite U3, U6, U7 in *. split_and!; lia. }
      destruct n as [v|err|]; [|exact Hterm..].
      rewrite subscriberNext_guarded by apply guarded_subscribeNext.
      destruct (metered_subscriberNext cancels 1 subscribeNext_closed v metered_closed st)
        as (N1 & N2 & N3).
      split_and!; lia.
    + pose proof (subscribed_other _ _ _ _ Hj Hne) as Ho.
      unfold innerNotify. destruct (inners st !! i) as [s|]; [rewrite Ho|];
        split_and!; lia.
  - rewrite innerNotify_finalized by apply Hdone. split_and!; lia.
Qed.

Lemma run_depth_from cancels u ns src evs st :
  sound cancels u ns src st → quiescent st →
  depth st = 0 → max_depth st ≤ length ns + 2 →
  depth (run cancels st evs) = 0 ∧ max_depth (run cancels st evs) ≤ length ns + 2.
Proof.
  revert u st. induction evs as [|ev evs IH]; intros u st S1 S2 D1 Hm; [done|].
  simpl.
  destruct (step_depth cancels u ns src ev st S1 S2 D1) as (E1 & E2 & E3).
  destruct ev as [i n|].
  - destruct (step_emit_sound cancels u ns src i n st S1 S2) as (T1 & T2 & _).
    apply (IH u); try done. lia.
  - destruct (step_unsubscribe_sound cancels u ns src st S1 S2) as (T1 & T2 & _).
    apply (IH true); try done; [by right|lia].
Qed.

Lemma run_depth cancels ns src evs :
  let st := run cancels (onErrorResumeNext cancels ns src) evs in
  depth st = 0 ∧ max_depth st ≤ length ns + 2.
Proof.
  destruct (initial_sound cancels ns src) as [I1 I2].
  destruct (subscribeNext_from_sound cancels false ns src _ _ I1 I2 eq_refl) as (S1 & S2 & _).
  destruct (subscribeNext_from_depth cancels false ns src _ _ I1 I2 eq_refl) as (D1 & _ & D3).
  apply (run_depth_from cancels false ns src evs _ S1 S2); [exact D1|].
  simpl in D3. unfold onErrorResumeNext, subscribeNext. simpl. lia.
Qed.

(** *** Statements *)

(** X1.  What can be observed of the store after any run (the
    notifications received, the queue, the number of inner subscribers
    created, whether [subscriber] is closed) is what the sequential
    advancement algorithm computes from the same inputs and events. *)
Theorem run_observed_by_sequential_algorithm cancels ns src evs :
  observe (run cancels (onErrorResumeNext cancels ns src) evs) =
    spec_run cancels (spec_subscribe cancels ns src) evs.
Proof. apply reachable_sound. Qed.

(** X2.  Whether a source ends with [error] or with [complete], and
    whatever it pushes after that, makes no difference to the consumer: the
    run in which every script is cut after its first terminal notification
    and every [error] is replaced by [complete] delivers the same
    notifications and closes [subscriber] alike. *)
Theorem termination_kind_is_irrelevant cancels ns src evs :
  visible (run cancels (onErrorResumeNext cancels (canon_input <$> ns) (canon_input src))
             (canon_event <$> evs)) =
  visible (run cancels (onErrorResumeNext cancels ns src) evs).
Proof.
  destruct (reachable_sound cancels ns src evs) as (_ & _ & H1).
  destruct (reachable_sound cancels (canon_input <$> ns) (canon_input src) (canon_event <$> evs))
    as (_ & _ & H2).
  unfold spec_subscribe in H2.
  change (canon_input src :: (canon_input <$> ns)) with (canon_input <$> (src :: ns)) in H2.
  rewrite spec_advance_canon, spec_run_canon in H2.
  fold (spec_subscribe cancels ns src) in H2. rewrite <- H1 in H2.
  unfold visible.
  by rewrite (f_equal o_received H2 : received _ = _), (f_equal o_closed H2 : closed _ = _).
Qed.

(** X3.  Once the consumer has unsubscribed on a notification, that is the
    last one it receives: if [cancels] holds of a non-empty prefix of what
    was received, the prefix is all that was received and [subscriber] is
    closed. *)
Theorem nothing_delivered_after_consumer_unsubscribes cancels ns src evs
    (l : list (Notification T)) :
  let st := run cancels (onErrorResumeNext cancels ns src) evs in
  l ≠ [] → l `prefix_of` received st → cancels l = true →
  received st = l ∧ closed st = true.
Proof. apply received_heeded. Qed.

(** X4.  A consumer that unsubscribes on its [n]-th notification ([n] at
    least one) never receives more than [n], however many the sources
    push, during [subscribe] or later. *)
Theorem take_consumer_receives_at_most_n (n : nat) ns src evs :
  0 < n →
  length (received (run (takes n) (onErrorResumeNext (takes n) ns src) evs)) ≤ n.
Proof.
  intros Hn.
  set (st := run (takes n) (onErrorResumeNext (takes n) ns src) evs).
  destruct (decide (length (received st) ≤ n)) as [|Hgt]; [done|].
  destruct (received_heeded (takes n) ns src evs (take n (received st))) as [Hr _].
  - intros Hnil. apply (f_equal length) in Hnil. rewrite length_take in Hnil.
    fold st in Hnil. simpl in Hnil. lia.
  - apply prefix_take.
  - unfold takes. rewrite length_take. fold st. apply Nat.eqb_eq. lia.
  - fold st in Hr. apply (f_equal length) in Hr. rewrite length_take in Hr. lia.
Qed.

(** X5.  A notification pushed into an inner subscriber that is not the
    newest one, or pushed after [subscriber] has closed, changes nothing:
    a source that was left behind cannot deliver anything or advance the
    queue. *)
Theorem stale_emission_ignored cancels ns src evs (i : nat) (n : Notification T) :
  let st := run cancels (onErrorResumeNext cancels ns src) evs in
  closed st = true ∨ S i ≠ length (inners st) →
  step cancels st (Emit i n) = st.
Proof.
  intros st Hi.
  destruct (reachable_sound cancels ns src evs) as (_ & Hq & _). fold st in Hq.
  simpl. destruct Hq as [[j Hj]|Hd].
  - destruct Hi as [Hc|Hi]; [destruct Hj as (Hj & _); congruence|].
    rewrite (subscribed_length _ _ _ Hj) in Hi.
    assert (Hne : i ≠ j) by lia.
    pose proof (subscribed_other _ _ _ _ Hj Hne) as Ho.
    unfold innerNotify. destruct (inners st !! i) as [s|]; [by rewrite Ho|done].
  - by rewrite innerNotify_finalized by apply Hd.
Qed.

(** X6.  When the consumer has received [complete], every entry of the
    queue that converts was subscribed, once and in order, and every one of
    these subscriptions has finalized. *)
Theorem complete_after_all_subscribed cancels ns src evs :
  let st := run cancels (onErrorResumeNext cancels ns src) evs in
  Complete ∈ received st →
  inner_source <$> inners st = omap innerFrom (src :: ns) ∧
  Forall finalized (inners st).
Proof.
  intros st Hin.
  destruct (reachable_sound cancels ns src evs) as (Hs & Hq & _). fold st in Hs, Hq.
  destruct (received_shape _ _ _ _ _ Hs) as (_ & _ & Hc).
  destruct (Hc Hin) as (Hcl & Hrem & _).
  destruct Hs as [_ (consumed & H2 & H2') _ _ _].
  rewrite Hrem, app_nil_r in H2. subst consumed. split; [done|].
  destruct Hq as [[j (Hj & _)]|Hd]; [congruence|apply Hd].
Qed.

(** X7.  When every entry of the queue either does not convert or
    terminates during [subscribe], the [subscribe] call delivers the values
    of all of them in queue order, followed by [complete], and leaves
    [subscriber] closed and the queue empty: the operator concatenates, not
    caring how each source ended. *)
Theorem synchronous_sources_concatenate ns src :
  Forall (λ e, input_finishes e = true) (src :: ns) →
  let st := onErrorResumeNext never_cancels ns src in
  received st = (Next <$> flat_map input_values (src :: ns)) ++ [Complete] ∧
  closed st = true ∧ remaining st = [].
Proof.
  intros Hq st.
  destruct (reachable_sound never_cancels ns src []) as (_ & _ & Hobs).
  change (observe st = spec_subscribe never_cancels ns src) in Hobs.
  unfold spec_subscribe in Hobs. rewrite spec_advance_finishing in Hobs by done.
  split_and!.
  - apply (f_equal o_received Hobs).
  - apply (f_equal o_closed Hobs).
  - apply (f_equal o_remaining Hobs).
Qed.

(** X8.  The [subscribe] call stops at the first entry that does not
    terminate during [subscribe]: the values of the entries up to and
    including it have been delivered, no [complete], the entries after it
    are still in the queue, [subscriber] is open and one inner subscriber is
    open. *)
Theorem pending_source_stops_the_drain ns src pre e post :
  src :: ns = pre ++ e :: post →
  Forall (λ e, input_finishes e = true) pre → input_finishes e = false →
  let st := onErrorResumeNext never_cancels ns src in
  received st = Next <$> flat_map input_values (pre ++ [e]) ∧
  remaining st = post ∧ closed st = false ∧ alive st = 1.
Proof.
  intros Hsplit Hpre He st.
  destruct (reachable_sound never_cancels ns src []) as (_ & Hq & Hobs).
  change (quiescent st) in Hq.
  change (observe st = spec_subscribe never_cancels ns src) in Hobs.
  unfold spec_subscribe in Hobs. rewrite Hsplit, spec_advance_pending in Hobs by done.
  pose proof (f_equal o_closed Hobs) as Hc. change (closed st = false) in Hc.
  split_and!.
  - apply (f_equal o_received Hobs).
  - apply (f_equal o_remaining Hobs).
  - done.
  - by rewrite (quiescent_alive _ Hq), Hc.
Qed.

(** X9.  A run only moves forward: what the consumer has received is a
    prefix of what it has received later, the queue at a later time is a
    suffix of the queue before, and inner subscribers are only added. *)
Theorem run_only_moves_forward cancels ns src evs evs' :
  let st := run cancels (onErrorResumeNext cancels ns src) evs in
  let st' := run cancels (onErrorResumeNext cancels ns src) (evs ++ evs') in
  received st `prefix_of` received st' ∧
  remaining st' `suffix_of` remaining st ∧
  length (inners st) ≤ length (inners st').
Proof.
  intros st st'.
  destruct (reachable_sound cancels ns src evs) as (_ & _ & H1).
  destruct (reachable_sound cancels ns src (evs ++ evs')) as (_ & _ & H2).
  fold st in H1. fold st' in H2.
  rewrite spec_run_app, <- H1 in H2.
  destruct (spec_run_mono cancels (observe st) evs') as (M1 & M2 & M3).
  rewrite <- H2 in M1, M2, M3. done.
Qed.

(** X10.  At no point of a run are more activations of [subscribeNext]
    nested than there are fallbacks, plus two: the recursion through
    [innerSub.add(subscribeNext)] goes at most one level down per entry of
    the queue, and one more for the empty queue. *)
Theorem nested_activations_bounded cancels ns src evs :
  let st := run cancels (onErrorResumeNext cancels ns src) evs in
  max_depth st ≤ length ns + 2.
Proof. apply run_depth. Qed.

(** X11.  While [subscriber] is open the operator is never idle: exactly
    one inner subscriber is open, it is the newest one, [subscriber] owns
    it, and [subscribeNext] is registered on it, so that its finalization
    advances the queue. *)
Theorem open_subscriber_has_one_active_source cancels ns src evs :
  let st := run cancels (onErrorResumeNext cancels ns src) evs in
  closed st = false →
  alive st = 1 ∧
  length (inners st) - 1 ∈ teardowns st ∧
  ∃ s, last (inners st) = Some s ∧ inner_closed s = false ∧
       SubscribeNext ∈ inner_teardowns s.
Proof.
  intros st Hc.
  destruct (reachable_sound cancels ns src evs) as (_ & Hq & _). fold st in Hq.
  destruct Hq as [[j Hj]|(Hd & _)]; [|congruence].
  split; [by eapply in_phase_active_alive|].
  destruct Hj as (_ & Htd & l & o & Hl & Hj & _).
  rewrite Hl, length_app, Htd. simpl.
  split; [replace (length l + 1 - 1) with j by lia; apply list_elem_of_here|].
  exists (mkInner false [SubscribeNext] o). rewrite last_snoc.
  split; [done|]. split; [done|]. apply list_elem_of_here.
Qed.

(** *** Well-behaved sources, any timing *)

Lemma spec_run_timed (xs : list (list T * Notification T * nat)) r c :
  Forall (λ x, terminal x.1.2) xs →
  spec_run never_cancels (spec_advance never_cancels (timed_inputs xs) r c)
    (timed_events c xs) =
  mkObserved (r ++ (Next <$> flat_map (λ x, x.1.1) xs) ++ [Complete]) []
    (c + length xs) true.
Proof.
  intros Hxs. revert r c. induction Hxs as [|[[vs t] k] xs Ht _ IH]; intros r c.
  - simpl. f_equal. lia.
  - simpl in Ht.
    change (flat_map (λ x, x.1.1) ((vs, t, k) :: xs)) with (vs ++ flat_map (λ x, x.1.1) xs).
    change (timed_events c ((vs, t, k) :: xs))
      with (async_part c k ((Next <$> vs) ++ [t]) ++ timed_events (S c) xs).
    change (spec_advance never_cancels (timed_inputs ((vs, t, k) :: xs)) r c)
      with (match spec_forward never_cancels (take k ((Next <$> vs) ++ [t])) r with
            | (r', Pending) => mkObserved r' (timed_inputs xs) (S c) false
            | (r', Terminated) => spec_advance never_cancels (timed_inputs xs) r' (S c)
            | (r', Cancelled) => mkObserved r' (timed_inputs xs) (S c) true
            end).
    unfold async_part. rewrite spec_run_app.
    assert (Hhead :
      spec_run never_cancels
        (match spec_forward never_cancels (take k ((Next <$> vs) ++ [t])) r with
         | (r', Pending) => mkObserved r' (timed_inputs xs) (S c) false
         | (r', Terminated) => spec_advance never_cancels (timed_inputs xs) r' (S c)
         | (r', Cancelled) => mkObserved r' (timed_inputs xs) (S c) true
         end) (Emit c <$> drop k ((Next <$> vs) ++ [t])) =
      spec_advance never_cancels (timed_inputs xs) (r ++ (Next <$> vs)) (S c)).
    { destruct (decide (k ≤ length vs)) as [Hk|Hk].
      - rewrite take_app_le, drop_app_le by (by rewrite length_fmap).
        rewrite <- fmap_take, <- fmap_drop, spec_forward_values.
        rewrite fmap_app, spec_run_app, spec_run_values. simpl.
        unfold spec_step. simpl. rewrite bool_decide_true by done.
        rewrite <- app_assoc, <- fmap_app, take_drop. by destruct t.
      - rewrite take_ge, drop_ge by (rewrite length_app, length_fmap; simpl; lia).
        by rewrite spec_forward_terminated. }
    rewrite Hhead, IH. rewrite fmap_app, <- !app_assoc. f_equal. cbn [length]. lia.
Qed.

(** X12.  Well-behaved sources, by any timing: when every source pushes
    its values and then completes or errors, each pushing any part of its
    script during [subscribe] and the rest once it is subscribed, the
    consumer receives the values of all sources in queue order, then
    [complete]. *)
Theorem sources_concatenate_by_any_timing
    (x : list T * Notification T * nat) (xs : list (list T * Notification T * nat)) :
  Forall (λ x, terminal x.1.2) (x :: xs) →
  received (run never_cancels
              (onErrorResumeNext never_cancels (timed_inputs xs)
                 (sync_part x.2 (timed_script x)))
              (timed_events 0 (x :: xs))) =
    (Next <$> flat_map (λ x, x.1.1) (x :: xs)) ++ [Complete].
Proof.
  intros Hxs.
  destruct (reachable_sound never_cancels (timed_inputs xs)
              (sync_part x.2 (timed_script x)) (timed_events 0 (x :: xs)))
    as (_ & _ & Hobs).
  apply (f_equal o_received) in Hobs.
  etrans; [exact Hobs|]. unfold spec_subscribe.
  change (sync_part x.2 (timed_script x) :: timed_inputs xs) with (timed_inputs (x :: xs)).
  by rewrite spec_run_timed.
Qed.

End Further.

(** ** Concrete runs of the further properties *)

(** X3, on a source that pushes three values during [subscribe] and a
    consumer that unsubscribes on the second. *)
Lemma nothing_delivered_after_consumer_unsubscribes_witness :
  received (run (takes 2)
              (onErrorResumeNext (takes 2) [completing]
                 (Input (mkObservable [Next 1; Next 2; Next 3; Complete]))) [])
    = [Next 1; Next 2] ∧
  closed (run (takes 2)
            (onErrorResumeNext (takes 2) [completing]
               (Input (mkObservable [Next 1; Next 2; Next 3; Complete]))) [])
    = true.
Proof.
  apply (nothing_delivered_after_consumer_unsubscribes (takes 2) [completing]
           (Input (mkObservable [Next 1; Next 2; Next 3; Complete])) [] [Next 1; Next 2]).
  - discriminate.
  - exists []. reflexivity.
  - reflexivity.
Defined.

(** X4, on the same source and two more values pushed later. *)
Lemma take_consumer_receives_at_most_n_witness :
  length (received (run (takes 2)
                      (onErrorResumeNext (takes 2) [Input (mkObservable [Next 7])]
                         (Input (mkObservable [Next 1; Next 2; Next 3; Complete])))
                      [Emit 0 (Next 4); Emit 1 (Next 5)])) ≤ 2.
Proof. apply take_consumer_receives_at_most_n. lia. Defined.

(** X5, on a primary that was left behind when it errored and pushes a
    value while the fallback is the open source; and on a primary that
    pushes a value after the consumer has unsubscribed. *)
Lemma stale_emission_ignored_witness :
  inner_closed <$>
    inners (run never_cancels
              (onErrorResumeNext never_cancels [Input (mkObservable [Next 2])]
                 (Input (mkObservable [Next 1])))
              [Emit 0 (Error 0)]) = [true; false] ∧
  step never_cancels
    (run never_cancels
       (onErrorResumeNext never_cancels [Input (mkObservable [Next 2])]
          (Input (mkObservable [Next 1])))
       [Emit 0 (Error 0)])
    (Emit 0 (Next 9)) =
  run never_cancels
    (onErrorResumeNext never_cancels [Input (mkObservable [Next 2])]
       (Input (mkObservable [Next 1])))
    [Emit 0 (Error 0)] ∧
  closed (run never_cancels
            (onErrorResumeNext never_cancels [completing] (Input (mkObservable [Next 1])))
            [Unsubscribe]) = true ∧
  step never_cancels
    (run never_cancels
       (onErrorResumeNext never_cancels [completing] (Input (mkObservable [Next 1])))
       [Unsubscribe])
    (Emit 0 (Next 9)) =
  run never_cancels
    (onErrorResumeNext never_cancels [completing] (Input (mkObservable [Next 1])))
    [Unsubscribe].
Proof.
  split; [reflexivity|]. split; [|split; [reflexivity|]].
  - apply (stale_emission_ignored never_cancels [Input (mkObservable [Next 2])]
             (Input (mkObservable [Next 1])) [Emit 0 (Error 0)] 0 (Next 9)).
    right. simpl. lia.
  - apply (stale_emission_ignored never_cancels [completing]
             (Input (mkObservable [Next 1])) [Unsubscribe] 0 (Next 9)).
    left. reflexivity.
Defined.

(** X6, on a source that completes during [subscribe] and a fallback that
    errors later. *)
Lemma complete_after_all_subscribed_witness :
  inner_source <$>
    inners (run never_cancels
              (onErrorResumeNext never_cancels [Input (mkObservable [Next 2])] completing)
              [Emit 1 (Error 0)]) =
  omap innerFrom [completing; Input (mkObservable [Next 2])] ∧
  Forall finalized
    (inners (run never_cancels
               (onErrorResumeNext never_cancels [Input (mkObservable [Next 2])] completing)
               [Emit 1 (Error 0)])).
Proof.
  apply (complete_after_all_subscribed never_cancels [Input (mkObservable [Next 2])]
           completing [Emit 1 (Error 0)]).
  apply list_elem_of_lookup_2 with 1. reflexivity.
Defined.

(** X7, on a source that errors after a value, an entry that does not
    convert and a source that completes after two values. *)
Lemma synchronous_sources_concatenate_witness :
  received (onErrorResumeNext never_cancels
              [Invalid; Input (mkObservable [Next 2; Next 3; Complete])]
              (Input (mkObservable [Next 1; Error 0])))
    = [Next 1; Next 2; Next 3; Complete] ∧
  closed (onErrorResumeNext never_cancels
            [Invalid; Input (mkObservable [Next 2; Next 3; Complete])]
            (Input (mkObservable [Next 1; Error 0]))) = true ∧
  remaining (onErrorResumeNext never_cancels
               [Invalid; Input (mkObservable [Next 2; Next 3; Complete])]
               (Input (mkObservable [Next 1; Error 0]))) = [].
Proof.
  apply (synchronous_sources_concatenate
           [Invalid; Input (mkObservable [Next 2; Next 3; Complete])]
           (Input (mkObservable [Next 1; Error 0]))).
  repeat (apply Forall_cons; split; [reflexivity|]). apply Forall_nil_2.
Defined.

(** X8, on a source that errors after a value, followed by one that pushes
    a value and stays open, followed by one more. *)
Lemma pending_source_stops_the_drain_witness :
  received (onErrorResumeNext never_cancels [Input (mkObservable [Next 2]); completing]
              (Input (mkObservable [Next 1; Error 0]))) = [Next 1; Next 2] ∧
  remaining (onErrorResumeNext never_cancels [Input (mkObservable [Next 2]); completing]
               (Input (mkObservable [Next 1; Error 0]))) = [completing] ∧
  closed (onErrorResumeNext never_cancels [Input (mkObservable [Next 2]); completing]
            (Input (mkObservable [Next 1; Error 0]))) = false ∧
  alive (onErrorResumeNext never_cancels [Input (mkObservable [Next 2]); completing]
           (Input (mkObservable [Next 1; Error 0]))) = 1.
Proof.
  apply (pending_source_stops_the_drain
           [Input (mkObservable [Next 2]); completing]
           (Input (mkObservable [Next 1; Error 0]))
           [Input (mkObservable [Next 1; Error 0])]
           (Input (mkObservable [Next 2])) [completing]).
  - reflexivity.
  - apply Forall_cons. split; [reflexivity|]. apply Forall_nil_2.
  - reflexivity.
Defined.

(** X11, on a source that has pushed a value and stays open. *)
Lemma open_subscriber_has_one_active_source_witness :
  alive (run never_cancels
           (onErrorResumeNext never_cancels [completing] (Input (mkObservable [Next 1]))) [])
    = 1 ∧
  length (inners (run never_cancels
                    (onErrorResumeNext never_cancels [completing]
                       (Input (mkObservable [Next 1]))) [])) - 1
    ∈ teardowns (run never_cancels
                   (onErrorResumeNext never_cancels [completing]
                      (Input (mkObservable [Next 1]))) []) ∧
  ∃ s, last (inners (run never_cancels
                       (onErrorResumeNext never_cancels [completing]
                          (Input (mkObservable [Next 1]))) []))
       = Some s ∧ inner_closed s = false ∧ SubscribeNext ∈ inner_teardowns s.
Proof.
  apply (open_subscriber_has_one_active_source never_cancels [completing]
           (Input (mkObservable [Next 1])) []).
  reflexivity.
Defined.

(** X12, on three sources: the first completes after two values, one of
    them pushed later; the second errors during [subscribe]; the third
    pushes its value and completes later. *)
Lemma sources_concatenate_by_any_timing_witness :
  received (run never_cancels
              (onErrorResumeNext never_cancels
                 (timed_inputs [([3], Error 0, 2); ([4], Complete, 0)])
                 (sync_part 1 (timed_script ([1; 2], Complete, 1))))
              (timed_events 0 [([1; 2], Complete, 1); ([3], Error 0, 2); ([4], Complete, 0)]))
    = [Next 1; Next 2; Next 3; Next 4; Complete].
Proof.
  apply (sources_concatenate_by_any_timing ([1; 2], Complete, 1)
           [([3], Error 0, 2); ([4], Complete, 0)]).
  repeat (apply Forall_cons; split; [exact I|]). apply Forall_nil_2.
Defined.
